(** * The playerctl player manager: name tracking and the player collection

    A shallow embedding of [playerctl/playerctl-player-manager.c].  The
    manager's private structure is a record, the two [GList]s are lists, a
    link of a [GList] is its position in the list, pointers are integers
    with [NULL = 0], and what a call emits is returned as a list, in emission
    order, each entry with the state of the manager at that moment.  GLib's
    list primitives are modelled after [glib/glist.c]. *)

From Stdlib Require Import ZArith Lia Sorted.
From stdpp Require Import base tactics option numbers list strings sorting.

(** ** Pointers, comparators, outcomes *)

Abbreviation gpointer := Z (only parsing).
Definition NULL : gpointer := 0%Z.

(** A [PlayerctlPlayer *]: a handle is compared by address only. *)
Abbreviation PlayerPtr := Z (only parsing).

(** A [GCompareDataFunc]: called on [a], [b] and [user_data], it returns a
    negative, zero or positive [gint]. *)
Definition GCompareDataFunc := gpointer -> gpointer -> gpointer -> Z.

(** A [GDestroyNotify] callback, known by its address. *)
Abbreviation GDestroyNotify := Z (only parsing).

(** A call either returns or jumps through a null function pointer. *)
Inductive outcome (A : Type) : Type :=
| Done (a : A)
| Segfault.
Arguments Done {A} a.
Arguments Segfault {A}.

#[global] Instance outcome_ret : MRet outcome := fun A a => Done a.
#[global] Instance outcome_bind : MBind outcome := fun A B k c =>
  match c with
  | Done a => k a
  | Segfault => Segfault
  end.

(** Calling through a function pointer that may be [NULL]. *)
Definition call_compare (compare_func : option GCompareDataFunc)
    (a b user_data : gpointer) : outcome Z :=
  match compare_func with
  | Some f => Done (f a b user_data)
  | None => Segfault
  end.

(** ** Strings *)

Definition strlen (s : string) : nat := String.length s.

(** [g_str_has_prefix (str, prefix)] *)
Definition g_str_has_prefix (str pre : string) : bool := String.prefix pre str.

(** [str + n] for [n <= strlen str]: the string that starts [n] characters in. *)
Fixpoint advance (str : string) (n : nat) : string :=
  match n, str with
  | S n', String _ rest => advance rest n'
  | _, _ => str
  end.

(** [g_strcmp0]: [NULL] sorts before every string, and two [NULL]s are equal. *)
Definition g_strcmp0 (str1 str2 : option string) : Z :=
  match str1, str2 with
  | None, None => 0
  | None, Some _ => -1
  | Some _, None => 1
  | Some s1, Some s2 =>
      match String.compare s1 s2 with
      | Eq => 0
      | Lt => -1
      | Gt => 1
      end
  end%Z.

(** ** GLib's doubly linked lists *)

Section GList.
Context {A : Type}.

Definition g_list_prepend (l : list A) (data : A) : list A := data :: l.

Definition g_list_concat (list1 list2 : list A) : list A := list1 ++ list2.

(** [g_list_remove_link (list, llink)], the link given by its position. *)
Definition g_list_remove_link (l : list A) (llink : nat) : list A :=
  delete llink l.

(** [g_list_find_custom (list, data, func)]: the first link whose element
    [func] compares equal to [data], with the element it holds. *)
Definition g_list_find_custom {B : Type} (l : list A) (data : B)
    (func : A -> B -> Z) : option (nat * A) :=
  list_find (fun x => func x data = 0%Z) l.
End GList.

(** [g_list_sort_merge]: the comparator is called while both lists have a
    link left; ties take from the first list. *)
Fixpoint g_list_sort_merge (l1 l2 : list gpointer)
    (compare_func : option GCompareDataFunc) (user_data : gpointer)
    {struct l1} : outcome (list gpointer) :=
  match l1 with
  | [] => Done l2
  | a :: l1' =>
      (fix merge_l2 (l2 : list gpointer) : outcome (list gpointer) :=
         match l2 with
         | [] => Done l1
         | b :: l2' =>
             cmp ← call_compare compare_func a b user_data;
             if (cmp <=? 0)%Z
             then rest ← g_list_sort_merge l1' l2 compare_func user_data;
                  Done (a :: rest)
             else rest ← merge_l2 l2';
                  Done (b :: rest)
         end) l2
  end.

(** The walk of [g_list_sort_real] to the middle of the list: [l2], here
    the links from it on, runs ahead two links for each link that [l1]
    advances; the result counts the links [l1] has advanced when [l2] runs
    off the list. *)
Fixpoint g_list_sort_walk (l2 : list gpointer) : nat :=
  match l2 with
  | _ :: _ :: ((_ :: _) as l2') => S (g_list_sort_walk l2')
  | _ => O
  end.

(** [g_list_sort_real]: a list of at most one link is returned as it is;
    a longer one is cut after the link the walk leaves [l1] on, both parts
    are sorted, and the results are merged.  Each cut costs one unit of
    fuel, and a list has fuel enough in its length. *)
Fixpoint g_list_sort_real (fuel : nat) (l : list gpointer)
    (compare_func : option GCompareDataFunc) (user_data : gpointer)
    : outcome (list gpointer) :=
  match l with
  | [] | [_] => Done l
  | _ :: ((_ :: _) as next) =>
      match fuel with
      | O => Done l
      | S fuel' =>
          let l1 := S (g_list_sort_walk next) in
          s1 ← g_list_sort_real fuel' (take l1 l) compare_func user_data;
          s2 ← g_list_sort_real fuel' (drop l1 l) compare_func user_data;
          g_list_sort_merge s1 s2 compare_func user_data
      end
  end.

Definition g_list_sort_with_data (l : list gpointer)
    (compare_func : option GCompareDataFunc) (user_data : gpointer)
    : outcome (list gpointer) :=
  g_list_sort_real (length l) l compare_func user_data.

(** [g_list_insert_sorted_real]: walk while [func (data, element) > 0], and
    link [data] before the first element that is not smaller, or last. *)
Fixpoint g_list_insert_sorted_real (l : list gpointer) (data : gpointer)
    (func : GCompareDataFunc) (user_data : gpointer) : list gpointer :=
  match l with
  | [] => [data]
  | x :: tl =>
      if (func data x user_data >? 0)%Z
      then x :: g_list_insert_sorted_real tl data func user_data
      else data :: l
  end.

(** [g_list_insert_sorted_with_data] starts with
    [g_return_val_if_fail (func != NULL, list)]. *)
Definition g_list_insert_sorted_with_data (l : list gpointer) (data : gpointer)
    (func : option GCompareDataFunc) (user_data : gpointer) : list gpointer :=
  match func with
  | None => l
  | Some f => g_list_insert_sorted_real l data f user_data
  end.

(** ** The manager's data *)

Definition GError := string.

(** The proxy for [org.freedesktop.DBus]; what the manager changes in it is
    the number of handlers connected to its [g-signal]. *)
Record GDBusProxy := { g_signal_handlers : nat }.

Record PlayerctlPlayerManagerPrivate := {
  initted : bool;
  init_error : option GError;
  proxy : option GDBusProxy;
  player_names : list string;
  players : list PlayerPtr;
  sort_func : option GCompareDataFunc;
  sort_data : gpointer;
  sort_notify : GDestroyNotify;
}.

Record PlayerctlNameEvent := { name : string }.

Inductive Signal :=
| NAME_APPEARED (event : PlayerctlNameEvent)
| NAME_VANISHED (event : PlayerctlNameEvent)
| PLAYER_APPEARED (player : PlayerPtr)
| PLAYER_VANISHED (player : PlayerPtr).

(** What a call of the manager makes visible outside it: a signal emitted to
    the subscribers, a warning logged, a destroy notifier called on its data. *)
Inductive Effect :=
| g_signal_emit (s : Signal)
| g_warning (type_string : string)
| destroy_notify (notify : GDestroyNotify) (data : gpointer).

(** The trace of a call: its effects in order, each with the manager as the
    code that runs then (a subscriber's handler) finds it. *)
Abbreviation Trace := (list (Effect * PlayerctlPlayerManagerPrivate)).

(** The parameters of a [g-signal]: a triple of strings, or a value of
    another type, known by its type string. *)
Inductive GVariant :=
| GVariant_sss (bus_name previous_owner new_owner : string)
| GVariant_other (type_string : string).

(** The session bus at initialization: the proxy or the error of
    [g_dbus_proxy_new_for_bus_sync], and the names or the error of
    [playerctl_list_players]. *)
Record Bus := {
  g_dbus_proxy_new_for_bus_sync : GDBusProxy + GError;
  playerctl_list_players : list string + GError;
}.

Definition set_initted (priv : PlayerctlPlayerManagerPrivate) (b : bool) :=
  {| initted := b; init_error := init_error priv; proxy := proxy priv;
     player_names := player_names priv; players := players priv;
     sort_func := sort_func priv; sort_data := sort_data priv;
     sort_notify := sort_notify priv |}.

Definition set_init_error (priv : PlayerctlPlayerManagerPrivate)
    (e : option GError) :=
  {| initted := initted priv; init_error := e; proxy := proxy priv;
     player_names := player_names priv; players := players priv;
     sort_func := sort_func priv; sort_data := sort_data priv;
     sort_notify := sort_notify priv |}.

Definition set_proxy (priv : PlayerctlPlayerManagerPrivate)
    (p : option GDBusProxy) :=
  {| initted := initted priv; init_error := init_error priv; proxy := p;
     player_names := player_names priv; players := players priv;
     sort_func := sort_func priv; sort_data := sort_data priv;
     sort_notify := sort_notify priv |}.

Definition set_player_names (priv : PlayerctlPlayerManagerPrivate)
    (l : list string) :=
  {| initted := initted priv; init_error := init_error priv;
     proxy := proxy priv; player_names := l; players := players priv;
     sort_func := sort_func priv; sort_data := sort_data priv;
     sort_notify := sort_notify priv |}.

Definition set_players (priv : PlayerctlPlayerManagerPrivate)
    (l : list PlayerPtr) :=
  {| initted := initted priv; init_error := init_error priv;
     proxy := proxy priv; player_names := player_names priv; players := l;
     sort_func := sort_func priv; sort_data := sort_data priv;
     sort_notify := sort_notify priv |}.

Definition set_sort (priv : PlayerctlPlayerManagerPrivate)
    (f : option GCompareDataFunc) (data : gpointer) (notify : GDestroyNotify) :=
  {| initted := initted priv; init_error := init_error priv;
     proxy := proxy priv; player_names := player_names priv;
     players := players priv;
     sort_func := f; sort_data := data; sort_notify := notify |}.

(** [g_signal_connect (proxy, "g-signal", callback, manager)] *)
Definition g_signal_connect (p : GDBusProxy) : GDBusProxy :=
  {| g_signal_handlers := S (g_signal_handlers p) |}.

(** The private structure of a new instance: zero-filled. *)
Definition playerctl_player_manager_init : PlayerctlPlayerManagerPrivate :=
  {| initted := false; init_error := None; proxy := None;
     player_names := []; players := [];
     sort_func := None; sort_data := NULL; sort_notify := NULL |}.

(** ** The operations on the player collection *)

Definition playerctl_player_manager_set_sort_func
    (manager : PlayerctlPlayerManagerPrivate)
    (sort_func : option GCompareDataFunc) (sort_data : gpointer)
    (notify : GDestroyNotify)
    : outcome (PlayerctlPlayerManagerPrivate * Trace) :=
  let manager := set_sort manager sort_func sort_data notify in
  sorted ← g_list_sort_with_data (players manager) sort_func sort_data;
  Done (set_players manager sorted, []).

Definition playerctl_player_manager_move_player_to_top
    (manager : PlayerctlPlayerManagerPrivate) (player : PlayerPtr)
    : outcome (PlayerctlPlayerManagerPrivate * Trace) :=
  match list_find (fun current => current = player) (players manager) with
  | Some (l, current) =>
      let manager :=
        set_players manager (g_list_remove_link (players manager) l) in
      let manager :=
        set_players manager (g_list_concat [current] (players manager)) in
      match sort_func manager with
      | Some _ =>
          sorted ← g_list_sort_with_data (players manager)
                     (sort_func manager) (sort_data manager);
          Done (set_players manager sorted, [])
      | None => Done (manager, [])
      end
  | None => Done (manager, [])
  end.

Definition playerctl_player_manager_manage_player
    (manager : PlayerctlPlayerManagerPrivate) (player : PlayerPtr)
    : PlayerctlPlayerManagerPrivate * Trace :=
  if decide (player = NULL) then (manager, [])
  else
    match list_find (fun current => player = current) (players manager) with
    | Some _ => (manager, [])
    | None =>
        let manager :=
          match sort_func manager with
          | Some _ =>
              set_players manager
                (g_list_insert_sorted_with_data (players manager) player
                   (sort_func manager) (sort_data manager))
          | None =>
              set_players manager (g_list_prepend (players manager) player)
          end in
        (manager, [(g_signal_emit (PLAYER_APPEARED player), manager)])
    end.

(** ** Initialization *)

(** [playerctl_player_manager_initable_init] returns its [gboolean], the
    manager, and what it stores through its [error] parameter: the error is
    the caller's to keep.  The caller [g_initable_new] points [error] at a
    variable of its own; the caller [constructed] points it at the manager's
    [init_error], and the store into that field is written out there. *)
Definition playerctl_player_manager_initable_init (bus : Bus)
    (manager : PlayerctlPlayerManagerPrivate)
    : bool * PlayerctlPlayerManagerPrivate * option GError :=
  if initted manager then (true, manager, None)
  else
    match g_dbus_proxy_new_for_bus_sync bus with
    | inr tmp_error => (false, set_proxy manager None, Some tmp_error)
    | inl p =>
        let manager := set_proxy manager (Some p) in
        match playerctl_list_players bus with
        | inr tmp_error => (false, set_player_names manager [], Some tmp_error)
        | inl names =>
            let manager := set_player_names manager names in
            let manager := set_proxy manager (Some (g_signal_connect p)) in
            (true, set_initted manager true, None)
        end
    end.

(** [constructed] runs the initialization with [&manager->priv->init_error]
    for its [error] parameter: an error the routine sets is stored in the
    [init_error] of the manager. *)
Definition playerctl_player_manager_constructed (bus : Bus)
    (manager : PlayerctlPlayerManagerPrivate) : PlayerctlPlayerManagerPrivate :=
  let '(_, manager, error) :=
    playerctl_player_manager_initable_init bus manager in
  match error with
  | Some e => set_init_error manager (Some e)
  | None => manager
  end.

(** [playerctl_player_manager_new]: [g_initable_new] builds the object, which
    runs [constructed], and then runs the initialization itself. *)
Definition playerctl_player_manager_new (bus : Bus)
    : PlayerctlPlayerManagerPrivate + GError :=
  let manager :=
    playerctl_player_manager_constructed bus playerctl_player_manager_init in
  let '(_, manager, tmp_error) :=
    playerctl_player_manager_initable_init bus manager in
  match tmp_error with
  | Some e => inr e
  | None => inl manager
  end.

(** ** Name tracking *)

Section NameTracking.
(** [MPRIS_PREFIX], a macro of [playerctl-common.h]. *)
Variable MPRIS_PREFIX : string.
(** [g_object_get (player, "player-id", &id, NULL)]: the identifier the
    handle reports, [None] for a null string. *)
Variable g_object_get_player_id : PlayerPtr -> option string.

Definition player_id_from_bus_name (bus_name : option string)
    : option string :=
  let prefix_len := strlen MPRIS_PREFIX in
  match bus_name with
  | None => None
  | Some bus_name =>
      if negb (g_str_has_prefix bus_name MPRIS_PREFIX)
         || (strlen bus_name <=? prefix_len)%nat
      then None
      else Some (advance bus_name prefix_len)
  end.

Definition manager_remove_managed_player_by_name
    (manager : PlayerctlPlayerManagerPrivate) (player_name : string)
    : PlayerctlPlayerManagerPrivate * Trace :=
  match list_find
          (fun player =>
             g_strcmp0 (g_object_get_player_id player) (Some player_name)
             = 0%Z)
          (players manager) with
  | Some (l, player) =>
      let manager :=
        set_players manager (g_list_remove_link (players manager) l) in
      (manager, [(g_signal_emit (PLAYER_VANISHED player), manager)])
  | None => (manager, [])
  end.

Definition dbus_name_owner_changed_callback
    (manager : PlayerctlPlayerManagerPrivate)
    (signal_name : option string) (parameters : GVariant)
    : PlayerctlPlayerManagerPrivate * Trace :=
  if decide (g_strcmp0 signal_name (Some "NameOwnerChanged") ≠ 0%Z)
  then (manager, [])
  else
    match parameters with
    | GVariant_other type_string =>
        (manager, [(g_warning type_string, manager)])
    | GVariant_sss bus_name previous_owner new_owner =>
        match player_id_from_bus_name (Some bus_name) with
        | None => (manager, [])
        | Some player_id =>
            if (strlen new_owner =? 0)%nat
               && negb (strlen previous_owner =? 0)%nat
            then
              (* the name has vanished *)
              match g_list_find_custom (player_names manager)
                      (Some player_id)
                      (fun a b => g_strcmp0 (Some a) b) with
              | Some (player_entry, data) =>
                  let manager :=
                    set_player_names manager
                      (g_list_remove_link (player_names manager)
                         player_entry) in
                  let '(manager, emitted) :=
                    manager_remove_managed_player_by_name manager data in
                  (manager,
                   emitted
                   ++ [(g_signal_emit (NAME_VANISHED {| name := data |}),
                        manager)])
              | None => (manager, [])
              end
            else if (strlen previous_owner =? 0)%nat
                    && negb (strlen new_owner =? 0)%nat
            then
              (* the name has appeared *)
              match g_list_find_custom (player_names manager)
                      (Some player_id)
                      (fun a b => g_strcmp0 (Some a) b) with
              | None =>
                  let manager :=
                    set_player_names manager
                      (g_list_prepend (player_names manager) player_id) in
                  (manager,
                   [(g_signal_emit (NAME_APPEARED {| name := player_id |}),
                     manager)])
              | Some _ => (manager, [])
              end
            else (manager, [])
        end
    end.

(** ** Sequences of calls *)

Inductive Call :=
| g_signal (signal_name : option string) (parameters : GVariant)
| manage_player (player : PlayerPtr)
| move_player_to_top (player : PlayerPtr)
| set_sort_func (sort_func : option GCompareDataFunc) (sort_data : gpointer)
    (notify : GDestroyNotify).

Definition step (c : Call) (manager : PlayerctlPlayerManagerPrivate)
    : outcome (PlayerctlPlayerManagerPrivate * Trace) :=
  match c with
  | g_signal signal_name parameters =>
      Done (dbus_name_owner_changed_callback manager signal_name parameters)
  | manage_player player =>
      Done (playerctl_player_manager_manage_player manager player)
  | move_player_to_top player =>
      playerctl_player_manager_move_player_to_top manager player
  | set_sort_func f data notify =>
      playerctl_player_manager_set_sort_func manager f data notify
  end.

Fixpoint run (cs : list Call) (manager : PlayerctlPlayerManagerPrivate)
    : outcome (PlayerctlPlayerManagerPrivate * Trace) :=
  match cs with
  | [] => Done (manager, [])
  | c :: cs' =>
      '(manager, emitted) ← step c manager;
      '(manager, emitted') ← run cs' manager;
      Done (manager, emitted ++ emitted')
  end.
End NameTracking.

(** ** A scenario: the MPRIS prefix, three handles, a comparator by priority *)

Definition mpris_prefix : string := "org.mpris.MediaPlayer2.".

Definition handle_A : PlayerPtr := 16%Z.
Definition handle_B : PlayerPtr := 32%Z.
Definition handle_C : PlayerPtr := 48%Z.

(** Handle A is the player of [spotify], B of [vlc], C of [mpv]. *)
Definition scenario_player_id (player : PlayerPtr) : option string :=
  if decide (player = handle_A) then Some "spotify"
  else if decide (player = handle_B) then Some "vlc"
  else if decide (player = handle_C) then Some "mpv"
  else None.

(** The priority field: B = 1, A = 2, C = 3. *)
Definition priority (player : PlayerPtr) : Z :=
  if decide (player = handle_B) then 1
  else if decide (player = handle_A) then 2
  else if decide (player = handle_C) then 3
  else 4.

Definition by_priority : GCompareDataFunc :=
  fun a b _ => (priority a - priority b)%Z.

(** A manager that is [READY] and tracks [names] and [handles]. *)
Definition ready_manager (names : list string) (handles : list PlayerPtr)
    : PlayerctlPlayerManagerPrivate :=
  {| initted := true; init_error := None;
     proxy := Some {| g_signal_handlers := 1 |};
     player_names := names; players := handles;
     sort_func := None; sort_data := NULL; sort_notify := NULL |}.

(** A session bus that answers, with [spotify] running. *)
Definition scenario_bus : Bus :=
  {| g_dbus_proxy_new_for_bus_sync := inl {| g_signal_handlers := 0 |};
     playerctl_list_players := inl ["spotify"] |}.

(** A session: [spotify] appears, A and B are managed, the collection is
    sorted by priority, A is moved to the top, [spotify] vanishes. *)
Definition scenario_session : list Call :=
  [g_signal (Some "NameOwnerChanged")
     (GVariant_sss "org.mpris.MediaPlayer2.spotify" "" ":1.5");
   manage_player handle_A; manage_player handle_B;
   set_sort_func (Some by_priority) NULL NULL;
   move_player_to_top handle_A;
   g_signal (Some "NameOwnerChanged")
     (GVariant_sss "org.mpris.MediaPlayer2.spotify" ":1.5" "")].

(** The comparator never returns a positive number both ways. *)
Definition cmp_total (f : GCompareDataFunc) (user_data : gpointer) : Prop :=
  forall a b, (0 < f a b user_data)%Z -> (f b a user_data <= 0)%Z.

(** [a] may stand before [b] in a list sorted by [f]. *)
Definition cmp_le (f : GCompareDataFunc) (user_data : gpointer)
    (a b : gpointer) : Prop :=
  (f a b user_data <= 0)%Z.

(** A vanished notification for [id]: a name under the prefix, the new owner
    empty and the previous owner not. *)
Definition vanished (MPRIS_PREFIX bus_name previous_owner new_owner id : string)
    : Prop :=
  player_id_from_bus_name MPRIS_PREFIX (Some bus_name) = Some id
  /\ new_owner = "" /\ previous_owner <> "".

(** An appeared notification for [id]. *)
Definition appeared (MPRIS_PREFIX bus_name previous_owner new_owner id : string)
    : Prop :=
  player_id_from_bus_name MPRIS_PREFIX (Some bus_name) = Some id
  /\ previous_owner = "" /\ new_owner <> "".

(** A [set_sort_func] call of the sequence passes a comparator. *)
Definition passes_comparator (c : Call) : Prop :=
  match c with
  | set_sort_func None _ _ => False
  | _ => True
  end.

(** Two instances of one player: every handle reports [spotify]. *)
Definition shared_player_id (player : PlayerPtr) : option string :=
  Some "spotify".

(** ** Notions for the properties of calls and of sequences of calls *)

(** The comparator is transitive where it does not return a positive
    number. *)
Definition cmp_trans (f : GCompareDataFunc) (user_data : gpointer) : Prop :=
  forall a b c,
    (f a b user_data <= 0)%Z -> (f b c user_data <= 0)%Z ->
    (f a c user_data <= 0)%Z.

(** The collection is in the order of the comparator in force, a total and
    transitive one; without a comparator nothing is asked. *)
Definition ordered_config (manager : PlayerctlPlayerManagerPrivate) : Prop :=
  match sort_func manager with
  | Some f =>
      cmp_total f (sort_data manager) /\ cmp_trans f (sort_data manager)
      /\ Sorted (cmp_le f (sort_data manager)) (players manager)
  | None => True
  end.

(** A [set_sort_func] call of the sequence passes a total and transitive
    comparator, or none. *)
Definition passes_order (c : Call) : Prop :=
  match c with
  | set_sort_func (Some f) data _ => cmp_total f data /\ cmp_trans f data
  | _ => True
  end.

#[global] Instance PlayerctlNameEvent_eq_dec : EqDecision PlayerctlNameEvent.
Proof. solve_decision. Defined.

#[global] Instance Signal_eq_dec : EqDecision Signal.
Proof. solve_decision. Defined.

#[global] Instance Effect_eq_dec : EqDecision Effect.
Proof. solve_decision. Defined.

(** How many times a trace emits the signal [s]. *)
Definition emissions (s : Signal) (trace : Trace) : nat :=
  length (filter (fun e => e.1 = g_signal_emit s) trace).

(** 1 when [x] is in the list, 0 when it is not. *)
Definition holds {A : Type} `{EqDecision A} (x : A) (l : list A) : nat :=
  if decide (x ∈ l) then 1 else 0.

(** An emission agrees with the manager its subscribers find: an appeared
    name or handle is in its sequence, a vanished one is not. *)
Definition consistent (e : Effect * PlayerctlPlayerManagerPrivate) : Prop :=
  match e.1 with
  | g_signal_emit (NAME_APPEARED event) => name event ∈ player_names e.2
  | g_signal_emit (NAME_VANISHED event) => name event ∉ player_names e.2
  | g_signal_emit (PLAYER_APPEARED player) => player ∈ players e.2
  | g_signal_emit (PLAYER_VANISHED player) => player ∉ players e.2
  | _ => True
  end.

(** The branches of [dbus_name_owner_changed_callback], each with what it
    returns: the signal is another one; the parameters are no triple of
    strings; the notification is neither vanished nor appeared; the name
    vanished and was not tracked, was tracked with no handle that reports
    it, was tracked with such a handle; the name appeared and was tracked,
    was not. *)
Inductive handler_case (MPRIS_PREFIX : string)
    (g_object_get_player_id : PlayerPtr -> option string)
    (manager : PlayerctlPlayerManagerPrivate)
    : option string -> GVariant -> PlayerctlPlayerManagerPrivate * Trace
      -> Prop :=
| case_other_signal signal_name parameters :
    signal_name <> Some "NameOwnerChanged" ->
    handler_case MPRIS_PREFIX g_object_get_player_id manager
      signal_name parameters (manager, [])
| case_malformed type_string :
    handler_case MPRIS_PREFIX g_object_get_player_id manager
      (Some "NameOwnerChanged") (GVariant_other type_string)
      (manager, [(g_warning type_string, manager)])
| case_irrelevant bus_name previous_owner new_owner :
    (forall id,
        ~ vanished MPRIS_PREFIX bus_name previous_owner new_owner id) ->
    (forall id,
        ~ appeared MPRIS_PREFIX bus_name previous_owner new_owner id) ->
    handler_case MPRIS_PREFIX g_object_get_player_id manager
      (Some "NameOwnerChanged")
      (GVariant_sss bus_name previous_owner new_owner) (manager, [])
| case_vanished_untracked bus_name previous_owner new_owner id :
    vanished MPRIS_PREFIX bus_name previous_owner new_owner id ->
    id ∉ player_names manager ->
    handler_case MPRIS_PREFIX g_object_get_player_id manager
      (Some "NameOwnerChanged")
      (GVariant_sss bus_name previous_owner new_owner) (manager, [])
| case_vanished_unmanaged bus_name previous_owner new_owner id
    names1 names2 :
    vanished MPRIS_PREFIX bus_name previous_owner new_owner id ->
    player_names manager = names1 ++ id :: names2 ->
    id ∉ names1 ->
    Forall (fun p => g_object_get_player_id p <> Some id) (players manager) ->
    handler_case MPRIS_PREFIX g_object_get_player_id manager
      (Some "NameOwnerChanged")
      (GVariant_sss bus_name previous_owner new_owner)
      (set_player_names manager (names1 ++ names2),
       [(g_signal_emit (NAME_VANISHED {| name := id |}),
         set_player_names manager (names1 ++ names2))])
| case_vanished_managed bus_name previous_owner new_owner id
    names1 names2 before player after :
    vanished MPRIS_PREFIX bus_name previous_owner new_owner id ->
    player_names manager = names1 ++ id :: names2 ->
    id ∉ names1 ->
    players manager = before ++ player :: after ->
    g_object_get_player_id player = Some id ->
    Forall (fun p => g_object_get_player_id p <> Some id) before ->
    handler_case MPRIS_PREFIX g_object_get_player_id manager
      (Some "NameOwnerChanged")
      (GVariant_sss bus_name previous_owner new_owner)
      (set_players (set_player_names manager (names1 ++ names2))
         (before ++ after),
       [(g_signal_emit (PLAYER_VANISHED player),
         set_players (set_player_names manager (names1 ++ names2))
           (before ++ after));
        (g_signal_emit (NAME_VANISHED {| name := id |}),
         set_players (set_player_names manager (names1 ++ names2))
           (before ++ after))])
| case_appeared_tracked bus_name previous_owner new_owner id :
    appeared MPRIS_PREFIX bus_name previous_owner new_owner id ->
    id ∈ player_names manager ->
    handler_case MPRIS_PREFIX g_object_get_player_id manager
      (Some "NameOwnerChanged")
      (GVariant_sss bus_name previous_owner new_owner) (manager, [])
| case_appeared_new bus_name previous_owner new_owner id :
    appeared MPRIS_PREFIX bus_name previous_owner new_owner id ->
    id ∉ player_names manager ->
    handler_case MPRIS_PREFIX g_object_get_player_id manager
      (Some "NameOwnerChanged")
      (GVariant_sss bus_name previous_owner new_owner)
      (set_player_names manager (id :: player_names manager),
       [(g_signal_emit (NAME_APPEARED {| name := id |}),
         set_player_names manager (id :: player_names manager))]).

(** A decidable closed proposition, by evaluation. *)
Ltac by_computation := apply (bool_decide_unpack _); vm_compute; exact I.

(** * Strings and the naming convention *)

Lemma g_strcmp0_eq (str1 str2 : option string) :
  g_strcmp0 str1 str2 = 0%Z <-> str1 = str2.
Proof.
  destruct str1 as [s1|], str2 as [s2|]; simpl; try (split; congruence).
  destruct (String.compare s1 s2) eqn:E.
  - apply String.compare_eq_iff in E. subst. tauto.
  - split; [lia | intros [= ->]].
    pose proof (String.compare_antisym s2 s2) as Ha. by rewrite E in Ha.
  - split; [lia | intros [= ->]].
    pose proof (String.compare_antisym s2 s2) as Ha. by rewrite E in Ha.
Qed.

Lemma strlen_zero (s : string) : (strlen s =? 0)%nat = true <-> s = "".
Proof.
  destruct s; simpl; split; intros H; try done.
Qed.

Lemma strlen_zero_false (s : string) : (strlen s =? 0)%nat = false <-> s <> "".
Proof.
  destruct s; simpl; split; intros H; try done.
Qed.

Lemma strlen_append (p s : string) :
  strlen (p +:+ s) = (strlen p + strlen s)%nat.
Proof.
  unfold strlen. induction p as [|c p IH]; simpl; [done | by rewrite IH].
Qed.

Lemma append_empty_r (p : string) : p +:+ "" = p.
Proof.
  induction p as [|c p IH]; [done |].
  change (String c (p +:+ "") = String c p). by rewrite IH.
Qed.

Lemma prefix_append (p s : string) : String.prefix p (p +:+ s) = true.
Proof.
  induction p as [|c p IH]; simpl.
  - by destruct s.
  - destruct (Ascii.ascii_dec c c); [exact IH | done].
Qed.

Lemma advance_append (p s : string) : advance (p +:+ s) (strlen p) = s.
Proof.
  induction p as [|c p IH]; simpl; [by destruct s | exact IH].
Qed.

Lemma prefix_advance (p s : string) :
  String.prefix p s = true -> s = p +:+ advance s (strlen p).
Proof.
  revert s. induction p as [|c p IH]; intros s H; simpl.
  - by destruct s.
  - destruct s as [|d s]; simpl in H; [done |].
    destruct (Ascii.ascii_dec c d) as [->|]; [| done].
    change (String d s = String d (p +:+ advance s (strlen p))).
    f_equal. by apply IH.
Qed.

(** The identifier of a bus name is what follows the prefix, when the name
    has the prefix and one character more. *)
Lemma player_id_from_bus_name_Some (MPRIS_PREFIX bus_name id : string) :
  player_id_from_bus_name MPRIS_PREFIX (Some bus_name) = Some id
  <-> bus_name = MPRIS_PREFIX +:+ id /\ id <> "".
Proof.
  unfold player_id_from_bus_name, g_str_has_prefix. split.
  - destruct (String.prefix MPRIS_PREFIX bus_name) eqn:Hp; simpl; [| done].
    destruct (strlen bus_name <=? strlen MPRIS_PREFIX)%nat eqn:Hl; [done |].
    intros [= <-]. apply prefix_advance in Hp. split; [exact Hp |].
    intros Hid. apply Nat.leb_gt in Hl. rewrite Hp, Hid, strlen_append in Hl.
    simpl in Hl. lia.
  - intros [-> Hid]. rewrite prefix_append, strlen_append. simpl.
    destruct (strlen MPRIS_PREFIX + strlen id <=? strlen MPRIS_PREFIX)%nat
      eqn:Hl.
    + apply Nat.leb_le in Hl. destruct id; [done | simpl in Hl; lia].
    + by rewrite advance_append.
Qed.

(** A name is rejected when it lacks the prefix or is the prefix alone. *)
Lemma player_id_from_bus_name_None (MPRIS_PREFIX bus_name : string) :
  player_id_from_bus_name MPRIS_PREFIX (Some bus_name) = None
  <-> g_str_has_prefix bus_name MPRIS_PREFIX = false
      \/ bus_name = MPRIS_PREFIX.
Proof.
  unfold player_id_from_bus_name, g_str_has_prefix. split.
  - destruct (String.prefix MPRIS_PREFIX bus_name) eqn:Hp; simpl; [| by left].
    destruct (strlen bus_name <=? strlen MPRIS_PREFIX)%nat eqn:Hl; [| done].
    intros _. right. apply Nat.leb_le in Hl. apply prefix_advance in Hp.
    rewrite Hp, strlen_append in Hl.
    destruct (advance bus_name (strlen MPRIS_PREFIX)) eqn:Ha;
      [| simpl in Hl; lia].
    rewrite Hp. apply append_empty_r.
  - intros [-> | ->]; [done |].
    destruct (String.prefix MPRIS_PREFIX MPRIS_PREFIX); simpl; [| done].
    by rewrite Nat.leb_refl.
Qed.

Example player_id_of_instance :
  player_id_from_bus_name mpris_prefix
    (Some "org.mpris.MediaPlayer2.vlc.instance1") = Some "vlc.instance1".
Proof. reflexivity. Qed.

Example player_id_of_prefix_alone :
  player_id_from_bus_name mpris_prefix (Some "org.mpris.MediaPlayer2.") = None.
Proof. reflexivity. Qed.

Example player_id_of_other_name :
  player_id_from_bus_name mpris_prefix (Some "org.freedesktop.DBus") = None.
Proof. reflexivity. Qed.

(** * GLib's merge sort *)

Lemma bind_Done {A B : Type} (a : A) (k : A -> outcome B) :
  (Done a ≫= k) = k a.
Proof. reflexivity. Qed.

Lemma bind_Segfault {A B : Type} (k : A -> outcome B) :
  (Segfault ≫= k) = Segfault.
Proof. reflexivity. Qed.

Lemma call_compare_Some (f : GCompareDataFunc) (a b user_data : gpointer) :
  call_compare (Some f) a b user_data = Done (f a b user_data).
Proof. reflexivity. Qed.

Lemma half_bounds (n : nat) : (2 <= n -> 1 <= n / 2 /\ n / 2 < n)%nat.
Proof.
  intros Hn. split.
  - apply (Nat.div_le_lower_bound n 2 1); lia.
  - apply Nat.div_lt; lia.
Qed.

Lemma g_list_sort_merge_nil_r (l1 : list gpointer)
    (compare_func : option GCompareDataFunc) (user_data : gpointer) :
  g_list_sort_merge l1 [] compare_func user_data = Done l1.
Proof. by destruct l1. Qed.

Lemma g_list_sort_merge_cons (a b : gpointer) (l1 l2 : list gpointer)
    (compare_func : option GCompareDataFunc) (user_data : gpointer) :
  g_list_sort_merge (a :: l1) (b :: l2) compare_func user_data =
    cmp ← call_compare compare_func a b user_data;
    if (cmp <=? 0)%Z
    then rest ← g_list_sort_merge l1 (b :: l2) compare_func user_data;
         Done (a :: rest)
    else rest ← g_list_sort_merge (a :: l1) l2 compare_func user_data;
         Done (b :: rest).
Proof. reflexivity. Qed.

(** With a comparator the merge returns, and loses or adds no element. *)
Lemma g_list_sort_merge_Some (f : GCompareDataFunc) (user_data : gpointer)
    (l1 l2 : list gpointer) :
  exists r, g_list_sort_merge l1 l2 (Some f) user_data = Done r
            /\ r ≡ₚ l1 ++ l2.
Proof.
  revert l2. induction l1 as [|a l1 IH1]; intros l2.
  - exists l2. by split.
  - induction l2 as [|b l2 IH2].
    + exists (a :: l1). rewrite g_list_sort_merge_nil_r, app_nil_r. by split.
    + rewrite g_list_sort_merge_cons, call_compare_Some, bind_Done.
      destruct (f a b user_data <=? 0)%Z.
      * destruct (IH1 (b :: l2)) as (r & -> & Hr). exists (a :: r).
        split; [done |]. by rewrite Hr.
      * destruct IH2 as (r & -> & Hr). exists (b :: r).
        split; [done |]. rewrite Hr.
        apply (Permutation_middle (a :: l1) l2 b).
Qed.

(** Merging two sorted lists gives a sorted list, when the comparator is
    total. *)
Lemma g_list_sort_merge_sorted (f : GCompareDataFunc) (user_data : gpointer)
    (Htotal : cmp_total f user_data) (l1 l2 r : list gpointer) :
  g_list_sort_merge l1 l2 (Some f) user_data = Done r ->
  Sorted (cmp_le f user_data) l1 -> Sorted (cmp_le f user_data) l2 ->
  Sorted (cmp_le f user_data) r
  /\ forall x, HdRel (cmp_le f user_data) x l1 ->
               HdRel (cmp_le f user_data) x l2 ->
               HdRel (cmp_le f user_data) x r.
Proof.
  revert l2 r. induction l1 as [|a l1 IH1]; intros l2 r.
  - intros [= <-] _ H2. by split.
  - induction l2 as [|b l2 IH2] in r |- *.
    + rewrite g_list_sort_merge_nil_r. intros [= <-] H1 _. by split.
    + rewrite g_list_sort_merge_cons, call_compare_Some, bind_Done.
      intros Hm H1 H2.
      destruct (f a b user_data <=? 0)%Z eqn:Hc.
      * destruct (g_list_sort_merge l1 (b :: l2) (Some f) user_data)
          as [r'|] eqn:Hr'; [| done].
        injection Hm as <-.
        apply Sorted_inv in H1 as [H1 Ha].
        destruct (IH1 _ _ Hr' H1 H2) as [Hs Hh]. split.
        -- constructor; [done |]. apply Hh; [done |].
           constructor. unfold cmp_le. lia.
        -- intros x Hx _. apply HdRel_inv in Hx. by constructor.
      * destruct (g_list_sort_merge (a :: l1) l2 (Some f) user_data)
          as [r'|] eqn:Hr'; [| done].
        injection Hm as <-.
        pose proof H2 as H2'. apply Sorted_inv in H2' as [H2' Hb].
        destruct (IH2 _ eq_refl H1 H2') as [Hs Hh]. split.
        -- constructor; [done |]. apply Hh; [| done].
           constructor. apply Htotal. lia.
        -- intros x _ Hx. apply HdRel_inv in Hx. by constructor.
Qed.

(** Without a comparator the merge of two lists that both have a link calls
    through the null pointer. *)
Lemma g_list_sort_merge_None (l1 l2 : list gpointer) (user_data : gpointer) :
  l1 <> [] -> l2 <> [] ->
  g_list_sort_merge l1 l2 None user_data = Segfault.
Proof.
  destruct l1 as [|a l1], l2 as [|b l2]; try done.
Qed.

(** The walk leaves [l1] on the last link of the first half. *)
Lemma g_list_sort_walk_half (n : nat) (next : list gpointer) :
  (length next <= n)%nat -> next <> [] ->
  S (g_list_sort_walk next) = (S (length next) / 2)%nat.
Proof.
  revert next. induction n as [|n IH]; intros next Hn Hnext.
  - destruct next; [done | simpl in Hn; lia].
  - destruct next as [|a [|b [|c next]]]; [done | done | done |].
    change (g_list_sort_walk (a :: b :: c :: next))
      with (S (g_list_sort_walk (c :: next))).
    rewrite (IH (c :: next)); [| simpl in *; lia | done].
    change (length (a :: b :: c :: next))
      with (S (S (length (c :: next)))).
    generalize (length (c :: next)). intros m.
    change (S (S (S m))) with (1 * 2 + S m)%nat.
    rewrite Nat.div_add_l by done. lia.
Qed.

(** One unit of fuel pays for one cut, after half of the links. *)
Lemma g_list_sort_real_S (fuel : nat) (l : list gpointer)
    (compare_func : option GCompareDataFunc) (user_data : gpointer) :
  (2 <= length l)%nat ->
  g_list_sort_real (S fuel) l compare_func user_data =
    s1 ← g_list_sort_real fuel (take (length l / 2) l) compare_func user_data;
    s2 ← g_list_sort_real fuel (drop (length l / 2) l) compare_func user_data;
    g_list_sort_merge s1 s2 compare_func user_data.
Proof.
  destruct l as [|x [|y l]]; simpl length; [lia.. |]. intros _.
  assert (S (g_list_sort_walk (y :: l)) = (S (S (length l)) / 2)%nat) as Hw
    by (by apply (g_list_sort_walk_half (length (y :: l)))).
  rewrite <- Hw. reflexivity.
Qed.

Lemma g_list_sort_real_short (fuel : nat) (l : list gpointer)
    (compare_func : option GCompareDataFunc) (user_data : gpointer) :
  (length l <= 1)%nat ->
  g_list_sort_real fuel l compare_func user_data = Done l.
Proof.
  destruct l as [|x [|y l]]; simpl length; [by destruct fuel.. | lia].
Qed.

(** More fuel than the list has links changes nothing. *)
Lemma g_list_sort_real_fuel (compare_func : option GCompareDataFunc)
    (user_data : gpointer) (fuel1 fuel2 : nat) (l : list gpointer) :
  (length l <= fuel1)%nat -> (length l <= fuel2)%nat ->
  g_list_sort_real fuel1 l compare_func user_data
  = g_list_sort_real fuel2 l compare_func user_data.
Proof.
  revert fuel2 l. induction fuel1 as [|fuel1 IH]; intros fuel2 l H1 H2.
  - rewrite !g_list_sort_real_short; [done | lia..].
  - destruct (decide (length l <= 1)%nat) as [Hs|Hs].
    { by rewrite !g_list_sort_real_short. }
    destruct fuel2 as [|fuel2]; [lia |].
    destruct (half_bounds (length l)) as [Hlo Hhi]; [lia |].
    rewrite !g_list_sort_real_S by lia.
    rewrite (IH fuel2 (take (length l / 2) l)),
            (IH fuel2 (drop (length l / 2) l));
      rewrite ?length_take, ?length_drop; try lia.
    done.
Qed.

(** The equation of the sort: a list of two links or more is cut after half
    of its links, and the sorted parts are merged. *)
Lemma g_list_sort_with_data_unfold (l : list gpointer)
    (compare_func : option GCompareDataFunc) (user_data : gpointer) :
  (2 <= length l)%nat ->
  g_list_sort_with_data l compare_func user_data =
    s1 ← g_list_sort_with_data (take (length l / 2) l) compare_func user_data;
    s2 ← g_list_sort_with_data (drop (length l / 2) l) compare_func user_data;
    g_list_sort_merge s1 s2 compare_func user_data.
Proof.
  intros Hlen. destruct (half_bounds _ Hlen) as [Hlo Hhi].
  unfold g_list_sort_with_data.
  rewrite (g_list_sort_real_fuel _ _ (length l) (S (length l)) l) by lia.
  rewrite g_list_sort_real_S by lia.
  rewrite (g_list_sort_real_fuel _ _ (length l)
             (length (take (length l / 2) l)) (take (length l / 2) l)),
          (g_list_sort_real_fuel _ _ (length l)
             (length (drop (length l / 2) l)) (drop (length l / 2) l));
    rewrite ?length_take, ?length_drop; try lia.
  done.
Qed.

(** With a comparator the sort returns a permutation of the list. *)
Lemma g_list_sort_real_Some (f : GCompareDataFunc) (user_data : gpointer)
    (fuel : nat) (l : list gpointer) :
  exists r, g_list_sort_real fuel l (Some f) user_data = Done r /\ r ≡ₚ l.
Proof.
  revert l. induction fuel as [|fuel IH]; intros l.
  - exists l. split; [| done]. by destruct l as [|x [|y l]].
  - destruct (decide (length l <= 1)%nat) as [Hs|Hs].
    { exists l. by rewrite g_list_sort_real_short. }
    rewrite g_list_sort_real_S by lia.
    destruct (IH (take (length l / 2) l)) as (s1 & -> & H1).
    destruct (IH (drop (length l / 2) l)) as (s2 & -> & H2).
    rewrite !bind_Done.
    destruct (g_list_sort_merge_Some f user_data s1 s2) as (r & -> & Hr).
    exists r. split; [done |].
    by rewrite Hr, H1, H2, take_drop.
Qed.

Lemma g_list_sort_with_data_Some (f : GCompareDataFunc) (user_data : gpointer)
    (l : list gpointer) :
  exists r, g_list_sort_with_data l (Some f) user_data = Done r /\ r ≡ₚ l.
Proof. apply g_list_sort_real_Some. Qed.

(** With a total comparator and fuel enough the result is sorted. *)
Lemma g_list_sort_real_sorted (f : GCompareDataFunc) (user_data : gpointer)
    (Htotal : cmp_total f user_data) (fuel : nat) (l r : list gpointer) :
  (length l <= fuel)%nat ->
  g_list_sort_real fuel l (Some f) user_data = Done r ->
  Sorted (cmp_le f user_data) r.
Proof.
  revert l r. induction fuel as [|fuel IH]; intros l r Hfuel.
  - destruct l; [| simpl in Hfuel; lia]. intros [= <-]. constructor.
  - destruct (decide (length l <= 1)%nat) as [Hs|Hs].
    { rewrite g_list_sort_real_short by done. intros [= <-].
      destruct l as [|x [|y l]]; [repeat constructor.. | simpl in Hs; lia]. }
    destruct (half_bounds (length l)) as [Hlo Hhi]; [lia |].
    rewrite g_list_sort_real_S by lia.
    destruct (g_list_sort_real fuel (take (length l / 2) l) (Some f) user_data)
      as [s1|] eqn:H1; [| done].
    destruct (g_list_sort_real fuel (drop (length l / 2) l) (Some f) user_data)
      as [s2|] eqn:H2; [| done].
    rewrite !bind_Done. intros Hm.
    apply IH in H1; [| rewrite length_take; lia].
    apply IH in H2; [| rewrite length_drop; lia].
    by destruct (g_list_sort_merge_sorted f user_data Htotal _ _ _ Hm H1 H2).
Qed.

Lemma g_list_sort_with_data_sorted (f : GCompareDataFunc)
    (user_data : gpointer) (l r : list gpointer) :
  cmp_total f user_data ->
  g_list_sort_with_data l (Some f) user_data = Done r ->
  Sorted (cmp_le f user_data) r.
Proof.
  intros Htotal. by apply g_list_sort_real_sorted.
Qed.

(** Without a comparator: a list of at most one link is returned untouched,
    a longer one makes the merge call through the null pointer. *)
Lemma g_list_sort_with_data_short (l : list gpointer)
    (compare_func : option GCompareDataFunc) (user_data : gpointer) :
  (length l <= 1)%nat ->
  g_list_sort_with_data l compare_func user_data = Done l.
Proof. apply g_list_sort_real_short. Qed.

Lemma g_list_sort_real_None (user_data : gpointer) (fuel : nat)
    (l : list gpointer) :
  (length l <= fuel)%nat -> (2 <= length l)%nat ->
  g_list_sort_real fuel l None user_data = Segfault.
Proof.
  revert l. induction fuel as [|fuel IH]; intros l Hfuel Hlen; [lia |].
  destruct (half_bounds _ Hlen) as [Hlo Hhi].
  rewrite g_list_sort_real_S by done.
  destruct (decide (2 <= length (take (length l / 2) l))%nat) as [H1|H1].
  { rewrite (IH (take (length l / 2) l));
      [reflexivity | rewrite length_take; lia | done]. }
  rewrite (g_list_sort_real_short _ (take _ _)) by lia. rewrite bind_Done.
  destruct (decide (2 <= length (drop (length l / 2) l))%nat) as [H2|H2].
  { rewrite (IH (drop (length l / 2) l));
      [reflexivity | rewrite length_drop; lia | done]. }
  rewrite (g_list_sort_real_short _ (drop _ _)) by lia. rewrite bind_Done.
  apply g_list_sort_merge_None.
  - intros E. apply (f_equal length) in E. rewrite length_take in E.
    cbn [length] in E. lia.
  - intros E. apply (f_equal length) in E. rewrite length_drop in E.
    cbn [length] in E. lia.
Qed.

Lemma g_list_sort_with_data_None (l : list gpointer) (user_data : gpointer) :
  (2 <= length l)%nat ->
  g_list_sort_with_data l None user_data = Segfault.
Proof. intros Hlen. by apply g_list_sort_real_None. Qed.

Example g_list_sort_five :
  g_list_sort_with_data [5; 4; 3; 2; 1]%Z (Some (fun a b _ => (a - b)%Z)) NULL
  = Done [1; 2; 3; 4; 5]%Z.
Proof. reflexivity. Qed.

(** The sort is stable: A and C have the same key and keep their order. *)
Example g_list_sort_stable :
  g_list_sort_with_data [handle_A; handle_B; handle_C]
    (Some (fun a b _ => (Z.min (priority a) 2 - Z.min (priority b) 2)%Z)) NULL
  = Done [handle_B; handle_A; handle_C].
Proof. reflexivity. Qed.

Example g_list_insert_sorted_before_equal :
  g_list_insert_sorted_with_data [1; 3; 5]%Z 3%Z
    (Some (fun a b _ => (a - b)%Z)) NULL
  = [1; 3; 3; 5]%Z.
Proof. reflexivity. Qed.

Example g_list_insert_sorted_last :
  g_list_insert_sorted_with_data [1; 3; 5]%Z 7%Z
    (Some (fun a b _ => (a - b)%Z)) NULL
  = [1; 3; 5; 7]%Z.
Proof. reflexivity. Qed.

(** * Finding and unlinking a link *)

(** The first link that satisfies [P] splits the list: nothing before it
    satisfies [P], and unlinking it leaves the links around it in order. *)
Lemma list_find_split {A : Type} (P : A -> Prop) `{!forall x, Decision (P x)}
    (l : list A) (i : nat) (x : A) :
  list_find P l = Some (i, x) ->
  exists l1 l2,
    l = l1 ++ x :: l2 /\ length l1 = i /\ P x
    /\ Forall (fun y => ~ P y) l1
    /\ g_list_remove_link l i = l1 ++ l2.
Proof.
  intros (Hi & HP & Hbefore)%list_find_Some.
  exists (take i l), (drop (S i) l).
  pose proof (lookup_lt_Some _ _ _ Hi) as Hlt.
  split_and!.
  - by rewrite take_drop_middle.
  - rewrite length_take. lia.
  - done.
  - apply Forall_lookup. intros j y [Hy Hj]%lookup_take_Some. eauto.
  - apply delete_take_drop.
Qed.

Lemma g_list_find_custom_Some (names : list string) (id : string)
    (i : nat) (data : string) :
  g_list_find_custom names (Some id) (fun a b => g_strcmp0 (Some a) b)
  = Some (i, data) ->
  data = id
  /\ (exists names1 names2,
        names = names1 ++ id :: names2 /\ (id ∉ names1)
        /\ g_list_remove_link names i = names1 ++ names2).
Proof.
  unfold g_list_find_custom.
  intros (l1 & l2 & -> & _ & Heq & Hbefore & Hdel)%list_find_split.
  apply g_strcmp0_eq in Heq as [= ->]. split; [done |].
  exists l1, l2. split_and!; [done | | done].
  intros Hin. rewrite Forall_forall in Hbefore.
  apply (Hbefore _ Hin). by apply g_strcmp0_eq.
Qed.

Lemma g_list_find_custom_None (names : list string) (id : string) :
  g_list_find_custom names (Some id) (fun a b => g_strcmp0 (Some a) b) = None
  <-> id ∉ names.
Proof.
  unfold g_list_find_custom. rewrite list_find_None, Forall_forall. split.
  - intros H Hin. apply (H _ Hin). by apply g_strcmp0_eq.
  - intros H x Hx [= ->]%g_strcmp0_eq. done.
Qed.

Lemma NoDup_remove_link {A : Type} (l : list A) (i : nat) :
  NoDup l -> NoDup (g_list_remove_link l i).
Proof. intros H. eapply sublist_NoDup; [done | apply sublist_delete]. Qed.

(** The place [g_list_insert_sorted_real] gives to [data]: after the links
    that compare smaller, before the first that does not. *)
Lemma g_list_insert_sorted_real_split (f : GCompareDataFunc)
    (user_data data : gpointer) (l : list gpointer) :
  exists l1 l2,
    l = l1 ++ l2
    /\ g_list_insert_sorted_real l data f user_data = l1 ++ data :: l2
    /\ Forall (fun x => (0 < f data x user_data)%Z) l1
    /\ HdRel (cmp_le f user_data) data l2.
Proof.
  induction l as [|x l (l1 & l2 & -> & Heq & Hl1 & Hl2)]; simpl.
  - exists [], []. split_and!; by try constructor.
  - destruct (f data x user_data >? 0)%Z eqn:Hc.
    + exists (x :: l1), l2. rewrite Heq. split_and!; try done.
      constructor; [lia | done].
    + exists [], (x :: l1 ++ l2). split_and!; try done.
      constructor. unfold cmp_le. lia.
Qed.

(** Inserting into a sorted list keeps it sorted, for a total comparator. *)
Lemma g_list_insert_sorted_real_sorted (f : GCompareDataFunc)
    (user_data data : gpointer) (l : list gpointer) :
  cmp_total f user_data ->
  Sorted (cmp_le f user_data) l ->
  Sorted (cmp_le f user_data) (g_list_insert_sorted_real l data f user_data).
Proof.
  intros Htotal. induction l as [|x l IH]; simpl; intros Hs.
  - repeat constructor.
  - apply Sorted_inv in Hs as [Hs Hx].
    destruct (f data x user_data >? 0)%Z eqn:Hc.
    + constructor; [by apply IH |].
      destruct l as [|y l]; simpl.
      * constructor. apply Htotal. lia.
      * destruct (f data y user_data >? 0)%Z.
        -- apply HdRel_inv in Hx. by constructor.
        -- constructor. apply Htotal. lia.
    + constructor; [by constructor |]. constructor. unfold cmp_le. lia.
Qed.

(** * The player collection keeps its handles *)

Lemma set_sort_func_players (manager manager' : PlayerctlPlayerManagerPrivate)
    (f : option GCompareDataFunc) (data : gpointer) (notify : GDestroyNotify)
    (emitted : Trace) :
  playerctl_player_manager_set_sort_func manager f data notify
  = Done (manager', emitted) ->
  players manager' ≡ₚ players manager
  /\ player_names manager' = player_names manager.
Proof.
  unfold playerctl_player_manager_set_sort_func. simpl.
  destruct f as [f|].
  - destruct (g_list_sort_with_data_Some f data (players manager))
      as (r & -> & Hr).
    rewrite bind_Done. by intros [= <- <-].
  - destruct (decide (length (players manager) <= 1)%nat).
    + rewrite g_list_sort_with_data_short by done. by intros [= <- <-].
    + rewrite g_list_sort_with_data_None by lia. done.
Qed.

Lemma move_player_to_top_players
    (manager : PlayerctlPlayerManagerPrivate) (player : PlayerPtr) :
  exists manager',
    playerctl_player_manager_move_player_to_top manager player
    = Done (manager', [])
    /\ players manager' ≡ₚ players manager
    /\ player_names manager' = player_names manager.
Proof.
  unfold playerctl_player_manager_move_player_to_top.
  destruct (list_find _ (players manager)) as [[i current]|] eqn:Hfind;
    [| by exists manager].
  apply list_find_split in Hfind as (l1 & l2 & Hl & _ & _ & _ & Hdel).
  simpl. rewrite Hdel. unfold g_list_concat. simpl.
  assert (current :: l1 ++ l2 ≡ₚ players manager) as Hperm.
  { rewrite Hl. apply Permutation_middle. }
  destruct (sort_func manager) as [f|] eqn:Hf.
  - destruct (g_list_sort_with_data_Some f (sort_data manager)
                (current :: l1 ++ l2)) as (r & -> & Hr).
    rewrite bind_Done. eexists. split; [done |]. simpl. by rewrite Hr.
  - eexists. split; [done |]. done.
Qed.

Lemma manage_player_players
    (manager : PlayerctlPlayerManagerPrivate) (player : PlayerPtr) :
  let manager' := (playerctl_player_manager_manage_player manager player).1 in
  player_names manager' = player_names manager
  /\ (players manager' = players manager
      \/ (player ∉ players manager)
         /\ players manager' ≡ₚ player :: players manager).
Proof.
  unfold playerctl_player_manager_manage_player.
  destruct (decide (player = NULL)); [by split; [| left] |].
  destruct (list_find _ (players manager)) as [?|] eqn:Hfind;
    [by split; [| left] |].
  apply list_find_None in Hfind. rewrite Forall_forall in Hfind.
  assert (player ∉ players manager) as Hnotin
    by (intros Hin; by eapply Hfind).
  destruct (sort_func manager) as [f|]; simpl.
  - split; [done |]. right. split; [done |].
    destruct (g_list_insert_sorted_real_split f (sort_data manager) player
                (players manager)) as (l1 & l2 & Hl & -> & _).
    rewrite Hl. symmetry. apply Permutation_middle.
  - split; [done |]. right. by split.
Qed.

(** * The ownership-change handler *)

Section Handler.
Variable MPRIS_PREFIX : string.
Variable g_object_get_player_id : PlayerPtr -> option string.

Local Abbreviation callback :=
  (dbus_name_owner_changed_callback MPRIS_PREFIX g_object_get_player_id).
Local Abbreviation remove_by_name :=
  (manager_remove_managed_player_by_name g_object_get_player_id).
Local Abbreviation reports id :=
  (fun player => g_object_get_player_id player = Some id).

(** The scan of the collection for the handle that reports [player_name]:
    the first such handle is unlinked and announced, or nothing happens. *)
Lemma manager_remove_managed_player_by_name_cases
    (manager : PlayerctlPlayerManagerPrivate) (player_name : string) :
  (exists before player after,
      players manager = before ++ player :: after
      /\ reports player_name player
      /\ Forall (fun p => ~ reports player_name p) before
      /\ remove_by_name manager player_name
         = (set_players manager (before ++ after),
            [(g_signal_emit (PLAYER_VANISHED player),
              set_players manager (before ++ after))]))
  \/ (Forall (fun p => ~ reports player_name p) (players manager)
      /\ remove_by_name manager player_name = (manager, [])).
Proof.
  unfold manager_remove_managed_player_by_name.
  destruct (list_find _ (players manager)) as [[l player]|] eqn:Hfind.
  - left.
    apply list_find_split in Hfind as (l1 & l2 & Hl & _ & HP & Hbefore & ->).
    exists l1, player, l2. split_and!; [done | by apply g_strcmp0_eq | | done].
    eapply Forall_impl; [exact Hbefore |]. intros p Hp Hid. apply Hp.
    by apply g_strcmp0_eq.
  - right. split; [| done]. apply list_find_None in Hfind.
    eapply Forall_impl; [exact Hfind |]. intros p Hp Hid. apply Hp.
    by apply g_strcmp0_eq.
Qed.

(** The handler on a vanished notification: the code of its first branch. *)
Lemma callback_vanished (manager : PlayerctlPlayerManagerPrivate)
    (bus_name previous_owner new_owner id : string) :
  vanished MPRIS_PREFIX bus_name previous_owner new_owner id ->
  callback manager (Some "NameOwnerChanged")
    (GVariant_sss bus_name previous_owner new_owner)
  = match g_list_find_custom (player_names manager) (Some id)
            (fun a b => g_strcmp0 (Some a) b) with
    | Some (player_entry, data) =>
        let '(manager', emitted) :=
          remove_by_name
            (set_player_names manager
               (g_list_remove_link (player_names manager) player_entry))
            data in
        (manager',
         emitted
         ++ [(g_signal_emit (NAME_VANISHED {| name := data |}), manager')])
    | None => (manager, [])
    end.
Proof.
  intros (Hid & -> & Hprev). unfold dbus_name_owner_changed_callback.
  destruct (decide _) as [Hne|_]; [by destruct Hne |].
  rewrite Hid. apply strlen_zero_false in Hprev. rewrite Hprev. simpl.
  reflexivity.
Qed.

(** The handler on an appeared notification: the code of its second branch. *)
Lemma callback_appeared (manager : PlayerctlPlayerManagerPrivate)
    (bus_name previous_owner new_owner id : string) :
  appeared MPRIS_PREFIX bus_name previous_owner new_owner id ->
  callback manager (Some "NameOwnerChanged")
    (GVariant_sss bus_name previous_owner new_owner)
  = match g_list_find_custom (player_names manager) (Some id)
            (fun a b => g_strcmp0 (Some a) b) with
    | None =>
        (set_player_names manager (g_list_prepend (player_names manager) id),
         [(g_signal_emit (NAME_APPEARED {| name := id |}),
           set_player_names manager
             (g_list_prepend (player_names manager) id))])
    | Some _ => (manager, [])
    end.
Proof.
  intros (Hid & -> & Hnew). unfold dbus_name_owner_changed_callback.
  destruct (decide _) as [Hne|_]; [by destruct Hne |].
  rewrite Hid. apply strlen_zero_false in Hnew. rewrite Hnew. simpl.
  reflexivity.
Qed.

(** Every notification is vanished, appeared, or changes nothing and emits
    at most a warning. *)
Lemma callback_classes (manager : PlayerctlPlayerManagerPrivate)
    (signal_name : option string) (parameters : GVariant) :
  (exists bus_name previous_owner new_owner id,
      signal_name = Some "NameOwnerChanged"
      /\ parameters = GVariant_sss bus_name previous_owner new_owner
      /\ (vanished MPRIS_PREFIX bus_name previous_owner new_owner id
          \/ appeared MPRIS_PREFIX bus_name previous_owner new_owner id))
  \/ (callback manager signal_name parameters).1 = manager.
Proof.
  unfold dbus_name_owner_changed_callback.
  destruct (decide _) as [Hne|He]; [by right |].
  apply dec_stable, g_strcmp0_eq in He as ->.
  destruct parameters as [bus_name previous_owner new_owner|]; [| by right].
  destruct (player_id_from_bus_name _ _) as [id|] eqn:Hid; [| by right].
  destruct (strlen new_owner =? 0)%nat eqn:Hnew,
           (strlen previous_owner =? 0)%nat eqn:Hprev; simpl; try by right.
  - left. exists bus_name, previous_owner, new_owner, id.
    split_and!; [done.. |]. left. split_and!; [done | |].
    + by apply strlen_zero.
    + by apply strlen_zero_false.
  - left. exists bus_name, previous_owner, new_owner, id.
    split_and!; [done.. |]. right. split_and!; [done | |].
    + by apply strlen_zero.
    + by apply strlen_zero_false.
Qed.

(** The classes cover the notifications: one that is neither vanished nor
    appeared has a name outside the convention, or owners that are both
    empty or both not. *)
Lemma notification_classes (bus_name previous_owner new_owner : string) :
  (exists id, vanished MPRIS_PREFIX bus_name previous_owner new_owner id)
  \/ (exists id, appeared MPRIS_PREFIX bus_name previous_owner new_owner id)
  \/ ((forall suffix, bus_name <> MPRIS_PREFIX +:+ suffix)
      \/ bus_name = MPRIS_PREFIX
      \/ (previous_owner = "" /\ new_owner = "")
      \/ (previous_owner <> "" /\ new_owner <> "")).
Proof.
  destruct (player_id_from_bus_name MPRIS_PREFIX (Some bus_name))
    as [id|] eqn:Hid.
  - destruct previous_owner as [|c p], new_owner as [|d n].
    + right. right. right. right. by left.
    + right. left. by exists id.
    + left. by exists id.
    + right. right. right. right. by right.
  - right. right.
    apply player_id_from_bus_name_None in Hid as [Hp | ->];
      [left | by right; left].
    intros suffix ->. unfold g_str_has_prefix in Hp.
    by rewrite prefix_append in Hp.
Qed.

(** The handler keeps both sequences free of duplicates. *)
Lemma callback_NoDup (manager : PlayerctlPlayerManagerPrivate)
    (signal_name : option string) (parameters : GVariant) :
  NoDup (player_names manager) -> NoDup (players manager) ->
  NoDup (player_names (callback manager signal_name parameters).1)
  /\ NoDup (players (callback manager signal_name parameters).1).
Proof.
  intros Hnames Hplayers.
  destruct (callback_classes manager signal_name parameters)
    as [(bus_name & previous_owner & new_owner & id & -> & -> & [Hv|Ha])| ->];
    [| | done].
  - rewrite (callback_vanished _ _ _ _ _ Hv).
    destruct (g_list_find_custom _ _ _) as [[entry data]|]; [| done].
    set (manager1 := set_player_names manager _).
    assert (NoDup (player_names manager1)) as Hnames1
      by (by apply NoDup_remove_link).
    destruct (manager_remove_managed_player_by_name_cases manager1 data)
      as [(before & player & after & Hl & _ & _ & ->)|[_ ->]]; [| done].
    simpl. split; [done |]. simpl in Hl. rewrite Hl in Hplayers.
    apply NoDup_app in Hplayers as (H1 & H2 & H3).
    apply NoDup_cons in H3 as [_ H3]. apply NoDup_app.
    split_and!; [done | | done].
    intros x Hx Hx'. apply (H2 x Hx). by right.
  - rewrite (callback_appeared _ _ _ _ _ Ha).
    destruct (g_list_find_custom _ _ _) as [?|] eqn:Hfind; [done |].
    apply g_list_find_custom_None in Hfind. simpl. split; [| done].
    by apply NoDup_cons.
Qed.

(** One call keeps both sequences free of duplicates, when it returns. *)
Lemma step_NoDup (c : Call) (manager manager' : PlayerctlPlayerManagerPrivate)
    (emitted : Trace) :
  step MPRIS_PREFIX g_object_get_player_id c manager
  = Done (manager', emitted) ->
  NoDup (player_names manager) -> NoDup (players manager) ->
  NoDup (player_names manager') /\ NoDup (players manager').
Proof.
  intros Hstep Hnames Hplayers. destruct c; simpl in Hstep.
  - injection Hstep as Hstep.
    pose proof (callback_NoDup manager signal_name parameters Hnames Hplayers)
      as H. by rewrite Hstep in H.
  - injection Hstep as Hstep.
    pose proof (manage_player_players manager player) as H.
    rewrite Hstep in H. simpl in H. destruct H as [-> [-> | [Hnotin Hperm]]];
      [done |]. split; [done |]. rewrite Hperm. by apply NoDup_cons.
  - destruct (move_player_to_top_players manager player)
      as (m & Hm & Hperm & Hn).
    rewrite Hm in Hstep. injection Hstep as <- <-.
    by rewrite Hperm, Hn.
  - apply set_sort_func_players in Hstep as [Hperm ->].
    by rewrite Hperm.
Qed.

(** A call other than [set_sort_func] with a null comparator returns. *)
Lemma step_Done (c : Call) (manager : PlayerctlPlayerManagerPrivate) :
  passes_comparator c ->
  exists manager' emitted,
    step MPRIS_PREFIX g_object_get_player_id c manager
    = Done (manager', emitted).
Proof.
  destruct c as [signal_name parameters|player|player|[f|] data notify];
    simpl; intros Hc; [| | | | done].
  - destruct (callback manager signal_name parameters). by eexists _, _.
  - destruct (playerctl_player_manager_manage_player manager player).
    by eexists _, _.
  - destruct (move_player_to_top_players manager player) as (m & -> & _).
    by eexists _, _.
  - unfold playerctl_player_manager_set_sort_func. simpl.
    destruct (g_list_sort_with_data_Some f data (players manager))
      as (r & -> & _).
    by eexists _, _.
Qed.
End Handler.

(** * The claims about name tracking *)

Section NameClaims.
Variable MPRIS_PREFIX : string.
Variable g_object_get_player_id : PlayerPtr -> option string.

Local Abbreviation callback :=
  (dbus_name_owner_changed_callback MPRIS_PREFIX g_object_get_player_id).
Local Abbreviation reports id :=
  (fun player => g_object_get_player_id player = Some id).

(** C1: on a vanished notification whose identifier is in the name registry,
    the handler unlinks the identifier from the registry (its first and, in a
    registry without duplicates, only occurrence); then, when a handle of the
    player collection reports that identifier, it unlinks the first such
    handle and emits player-vanished with it; and last it emits name-vanished
    with an event carrying the identifier.  The registry and the collection
    of the manager the call returns are the old ones without that link and
    without that handle; the call returns exactly these emissions, in this
    order, and the subscribers of both signals find the registry and the
    collection as the call leaves them. *)
Theorem vanished_tracked_name_unlinked_and_announced
    (manager : PlayerctlPlayerManagerPrivate)
    (bus_name previous_owner new_owner id : string) :
  vanished MPRIS_PREFIX bus_name previous_owner new_owner id ->
  id ∈ player_names manager ->
  exists names1 names2,
    player_names manager = names1 ++ id :: names2
    /\ (id ∉ names1)
    /\ player_names
         (callback manager (Some "NameOwnerChanged")
            (GVariant_sss bus_name previous_owner new_owner)).1
       = names1 ++ names2
    /\ (NoDup (player_names manager) -> id ∉ names1 ++ names2)
    /\ (NoDup (player_names manager) ->
        id ∉ player_names
               (callback manager (Some "NameOwnerChanged")
                  (GVariant_sss bus_name previous_owner new_owner)).1)
    /\ ((exists player, player ∈ players manager /\ reports id player) ->
        exists before player after,
          players manager = before ++ player :: after
          /\ reports id player
          /\ Forall (fun p => ~ reports id p) before
          /\ players
               (callback manager (Some "NameOwnerChanged")
                  (GVariant_sss bus_name previous_owner new_owner)).1
             = before ++ after
          /\ (NoDup (players manager) ->
              player ∉ players
                         (callback manager (Some "NameOwnerChanged")
                            (GVariant_sss bus_name previous_owner
                               new_owner)).1)
          /\ callback manager (Some "NameOwnerChanged")
               (GVariant_sss bus_name previous_owner new_owner)
             = (set_players
                  (set_player_names manager (names1 ++ names2))
                  (before ++ after),
                [(g_signal_emit (PLAYER_VANISHED player),
                  set_players
                    (set_player_names manager (names1 ++ names2))
                    (before ++ after));
                 (g_signal_emit (NAME_VANISHED {| name := id |}),
                  set_players
                    (set_player_names manager (names1 ++ names2))
                    (before ++ after))]))
    /\ ((forall player, player ∈ players manager -> ~ reports id player) ->
        players
          (callback manager (Some "NameOwnerChanged")
             (GVariant_sss bus_name previous_owner new_owner)).1
        = players manager
        /\ callback manager (Some "NameOwnerChanged")
             (GVariant_sss bus_name previous_owner new_owner)
           = (set_player_names manager (names1 ++ names2),
              [(g_signal_emit (NAME_VANISHED {| name := id |}),
                set_player_names manager (names1 ++ names2))])).
Proof.
  intros Hv Hin.
  pose proof (callback_vanished MPRIS_PREFIX g_object_get_player_id
                manager _ _ _ _ Hv) as Hcb.
  destruct (g_list_find_custom (player_names manager) (Some id) _)
    as [[entry data]|] eqn:Hfind.
  2: { apply g_list_find_custom_None in Hfind. done. }
  apply g_list_find_custom_Some in Hfind
    as (-> & names1 & names2 & Hn & Hnot & Hdel).
  rewrite Hdel in Hcb. exists names1, names2.
  assert (forall {A : Type} (x : A) (l1 l2 : list A),
            NoDup (l1 ++ x :: l2) -> x ∉ l1 ++ l2) as Hmiddle.
  { intros A x l1 l2 (_ & Hdisj & [Hx _]%NoDup_cons)%NoDup_app.
    intros [H1 | H2]%elem_of_app; [| done]. apply (Hdisj _ H1). by left. }
  destruct (manager_remove_managed_player_by_name_cases
              g_object_get_player_id
              (set_player_names manager (names1 ++ names2)) id)
    as [(before & player & after & Hl & Hr & Hbefore & Heq)|[Hnone Heq]];
    rewrite Heq in Hcb; rewrite Hcb; simpl.
  - simpl in Hl. split_and!; [done | done | done | | | |].
    + rewrite Hn. apply Hmiddle.
    + rewrite Hn. apply Hmiddle.
    + intros _. exists before, player, after. split_and!; [done.. | | done].
      rewrite Hl. apply Hmiddle.
    + intros Hnone. destruct (Hnone player); [| done]. rewrite Hl.
      apply elem_of_app. right. by left.
  - split_and!; [done | done | done | | | |].
    + rewrite Hn. apply Hmiddle.
    + rewrite Hn. apply Hmiddle.
    + intros (p & Hp & Hrep). simpl in Hnone.
      rewrite Forall_forall in Hnone. by destruct (Hnone p Hp).
    + by intros _.
Qed.

(** C9: a vanished notification whose identifier is not in the name
    registry changes nothing and emits nothing; the player collection is not
    scanned, whatever its handles report. *)
Theorem vanished_untracked_name_ignored
    (manager : PlayerctlPlayerManagerPrivate)
    (bus_name previous_owner new_owner id : string) :
  vanished MPRIS_PREFIX bus_name previous_owner new_owner id ->
  id ∉ player_names manager ->
  callback manager (Some "NameOwnerChanged")
    (GVariant_sss bus_name previous_owner new_owner)
  = (manager, []).
Proof.
  intros Hv Hnotin.
  rewrite (callback_vanished MPRIS_PREFIX g_object_get_player_id
             _ _ _ _ _ Hv).
  apply g_list_find_custom_None in Hnotin. by rewrite Hnotin.
Qed.


(** C5: a notification that is neither vanished nor appeared -- its bus name
    lacks the prefix, or is the prefix alone, or both owners are empty, or
    both are not -- changes neither the name registry nor the player
    collection nor anything else of the state, and emits nothing. *)
Theorem irrelevant_notification_ignored
    (manager : PlayerctlPlayerManagerPrivate)
    (bus_name previous_owner new_owner : string) :
  (forall suffix, bus_name <> MPRIS_PREFIX +:+ suffix)
  \/ bus_name = MPRIS_PREFIX
  \/ (previous_owner = "" /\ new_owner = "")
  \/ (previous_owner <> "" /\ new_owner <> "") ->
  (forall id, ~ vanished MPRIS_PREFIX bus_name previous_owner new_owner id)
  /\ (forall id, ~ appeared MPRIS_PREFIX bus_name previous_owner new_owner id)
  /\ callback manager (Some "NameOwnerChanged")
       (GVariant_sss bus_name previous_owner new_owner)
     = (manager, []).
Proof.
  intros Hirr.
  assert (player_id_from_bus_name MPRIS_PREFIX (Some bus_name) = None
          \/ (previous_owner = "" /\ new_owner = "")
          \/ (previous_owner <> "" /\ new_owner <> "")) as Hcases.
  { destruct Hirr as [Hlack | [Halone | Howners]]; [left | left | by right].
    - apply player_id_from_bus_name_None. left.
      destruct (g_str_has_prefix bus_name MPRIS_PREFIX) eqn:Hp; [| done].
      apply prefix_advance in Hp. by destruct (Hlack _ Hp).
    - apply player_id_from_bus_name_None. by right. }
  clear Hirr. split_and!.
  - intros id (Hid & Hnew & Hprev).
    destruct Hcases as [Hnone | [[Hp _] | [_ Hn]]]; congruence.
  - intros id (Hid & Hprev & Hnew).
    destruct Hcases as [Hnone | [[_ Hn] | [Hp _]]]; congruence.
  - unfold dbus_name_owner_changed_callback.
    destruct (decide _) as [Hne|_]; [by destruct Hne |].
    destruct (player_id_from_bus_name _ _) as [id|] eqn:Hid; [| done].
    destruct Hcases as [Hnone | [[-> ->] | [Hp Hn]]]; [done | done |].
    apply strlen_zero_false in Hp, Hn. by rewrite Hp, Hn.
Qed.

(** C2: from a state in which no identifier occurs twice in the name
    registry and no handle occurs twice in the player collection, every
    sequence of notifications and of manage, move-to-top and set-sort calls
    that returns ends in such a state; and a sequence returns when each of
    its set-sort calls passes a comparator. *)
Theorem no_duplicates_after_calls
    (cs : list Call) (manager : PlayerctlPlayerManagerPrivate) :
  NoDup (player_names manager) -> NoDup (players manager) ->
  (forall manager' emitted,
      run MPRIS_PREFIX g_object_get_player_id cs manager
      = Done (manager', emitted) ->
      NoDup (player_names manager') /\ NoDup (players manager'))
  /\ (Forall passes_comparator cs ->
      exists manager' emitted,
        run MPRIS_PREFIX g_object_get_player_id cs manager
        = Done (manager', emitted)).
Proof.
  revert manager. induction cs as [|c cs IH]; intros manager Hnames Hplayers.
  - split; [by intros ? ? [= <- <-] | by eexists _, _].
  - simpl. split.
    + intros manager' emitted.
      destruct (step _ _ c manager) as [[manager1 emitted1]|] eqn:Hstep;
        [| done].
      rewrite bind_Done.
      destruct (step_NoDup _ _ _ _ _ _ Hstep Hnames Hplayers) as [Hn1 Hp1].
      destruct (IH manager1 Hn1 Hp1) as [IHinv _].
      destruct (run _ _ cs manager1) as [[manager2 emitted2]|] eqn:Hrun;
        [| done].
      rewrite bind_Done. intros [= <- <-]. by eapply IHinv.
    + intros [Hc Hcs]%Forall_cons.
      destruct (step_Done MPRIS_PREFIX g_object_get_player_id c manager Hc)
        as (manager1 & emitted1 & Hstep).
      rewrite Hstep, bind_Done.
      destruct (step_NoDup _ _ _ _ _ _ Hstep Hnames Hplayers) as [Hn1 Hp1].
      destruct (IH manager1 Hn1 Hp1) as [_ IHdone].
      destruct (IHdone Hcs) as (manager2 & emitted2 & ->).
      rewrite bind_Done. by eexists _, _.
Qed.
End NameClaims.

(** * The claims about the player collection *)

(** C3: managing the null handle, or a handle that is in the collection
    already, changes nothing and emits nothing.  Any other handle is linked
    into the collection -- with a comparator after the handles it compares
    greater than and before the first it does not, without one at the front
    -- and player-appeared is emitted with it, once.  A second call with the
    same handle then changes nothing and emits nothing. *)
Theorem manage_player_inserts_once
    (manager : PlayerctlPlayerManagerPrivate) (player : PlayerPtr) :
  playerctl_player_manager_manage_player manager NULL = (manager, [])
  /\ (player ∈ players manager ->
      playerctl_player_manager_manage_player manager player = (manager, []))
  /\ (player <> NULL -> player ∉ players manager ->
      exists l1 l2,
        players manager = l1 ++ l2
        /\ playerctl_player_manager_manage_player manager player
           = (set_players manager (l1 ++ player :: l2),
              [(g_signal_emit (PLAYER_APPEARED player),
                set_players manager (l1 ++ player :: l2))])
        /\ match sort_func manager with
           | None => l1 = []
           | Some f =>
               Forall (fun x => (0 < f player x (sort_data manager))%Z) l1
               /\ HdRel (cmp_le f (sort_data manager)) player l2
           end)
  /\ playerctl_player_manager_manage_player
       (playerctl_player_manager_manage_player manager player).1 player
     = ((playerctl_player_manager_manage_player manager player).1, []).
Proof.
  assert (forall m, player ∈ players m ->
            playerctl_player_manager_manage_player m player = (m, []))
    as Hpresent.
  { intros m Hin. unfold playerctl_player_manager_manage_player.
    destruct (decide (player = NULL)); [done |].
    destruct (list_find _ (players m)) as [?|] eqn:Hfind; [done |].
    apply list_find_None in Hfind. rewrite Forall_forall in Hfind.
    by destruct (Hfind _ Hin). }
  assert (player <> NULL -> player ∉ players manager ->
          exists l1 l2,
            players manager = l1 ++ l2
            /\ playerctl_player_manager_manage_player manager player
               = (set_players manager (l1 ++ player :: l2),
                  [(g_signal_emit (PLAYER_APPEARED player),
                    set_players manager (l1 ++ player :: l2))])
            /\ match sort_func manager with
               | None => l1 = []
               | Some f =>
                   Forall (fun x => (0 < f player x (sort_data manager))%Z) l1
                   /\ HdRel (cmp_le f (sort_data manager)) player l2
               end) as Hfresh.
  { intros Hnull Hnotin. unfold playerctl_player_manager_manage_player.
    destruct (decide (player = NULL)); [done |].
    destruct (list_find _ (players manager)) as [[i x]|] eqn:Hfind.
    { apply list_find_Some in Hfind as (Hx%list_elem_of_lookup_2 & <- & _).
      done. }
    destruct (sort_func manager) as [f|]; simpl.
    - destruct (g_list_insert_sorted_real_split f (sort_data manager) player
                  (players manager)) as (l1 & l2 & Hl & -> & H1 & H2).
      by exists l1, l2.
    - by exists [], (players manager). }
  split_and!; [done | by apply Hpresent | done |].
  destruct (decide (player = NULL)) as [->|Hnull]; [done |].
  destruct (decide (player ∈ players manager)) as [Hin|Hnotin].
  - rewrite (Hpresent manager Hin). by apply Hpresent.
  - destruct (Hfresh Hnull Hnotin) as (l1 & l2 & _ & -> & _).
    apply Hpresent. simpl. apply elem_of_app. right. by left.
Qed.


(** C7: for every comparator, context and destroy notifier, setting the sort
    returns a manager whose sort configuration is the one passed, whatever
    was configured before, and whose player collection is the old one sorted
    by the new comparator: a permutation of it, in order when the comparator
    is total; the registry is as it was.  Whatever is passed, a call that
    returns has written the fields it was given and has made no call
    outside the manager: no destroy notifier is called on the context
    configured before.  On [A; B; C] without a comparator, the comparator by
    the priorities B = 1, A = 2, C = 3 leaves the collection [B; A; C]. *)
Theorem set_sort_func_replaces_and_sorts
    (manager : PlayerctlPlayerManagerPrivate)
    (f : GCompareDataFunc) (data : gpointer) (notify : GDestroyNotify) :
  (exists manager' sorted,
      playerctl_player_manager_set_sort_func manager (Some f) data notify
      = Done (manager', [])
      /\ manager' = set_players (set_sort manager (Some f) data notify) sorted
      /\ players manager' = sorted
      /\ sort_func manager' = Some f
      /\ sort_data manager' = data
      /\ sort_notify manager' = notify
      /\ player_names manager' = player_names manager
      /\ g_list_sort_with_data (players manager) (Some f) data = Done sorted
      /\ sorted ≡ₚ players manager
      /\ (cmp_total f data -> Sorted (cmp_le f data) sorted))
  /\ (forall compare manager' emitted,
        playerctl_player_manager_set_sort_func manager compare data notify
        = Done (manager', emitted) ->
        sort_func manager' = compare /\ sort_data manager' = data
        /\ sort_notify manager' = notify
        /\ players manager' ≡ₚ players manager
        /\ (forall seen,
              (destroy_notify (sort_notify manager) (sort_data manager), seen)
              ∉ emitted))
  /\ (players manager = [handle_A; handle_B; handle_C] ->
      sort_func manager = None ->
      exists manager',
        playerctl_player_manager_set_sort_func manager (Some by_priority)
          data notify
        = Done (manager', [])
        /\ players manager' = [handle_B; handle_A; handle_C]
        /\ manager'
           = set_players (set_sort manager (Some by_priority) data notify)
               [handle_B; handle_A; handle_C]).
Proof.
  split_and!.
  - unfold playerctl_player_manager_set_sort_func. simpl.
    destruct (g_list_sort_with_data_Some f data (players manager))
      as (sorted & Hs & Hperm).
    rewrite Hs, bind_Done. eexists _, sorted. split_and!; [done.. |].
    intros Htotal. by eapply g_list_sort_with_data_sorted.
  - intros compare manager' emitted Hset.
    destruct (set_sort_func_players _ _ _ _ _ _ Hset) as [Hperm _].
    revert Hset. unfold playerctl_player_manager_set_sort_func. simpl.
    destruct (g_list_sort_with_data (players manager) compare data)
      as [sorted|]; [| done].
    rewrite bind_Done. intros [= <- <-]. split_and!; [done.. |].
    intros seen. apply not_elem_of_nil.
  - intros Hl _. unfold playerctl_player_manager_set_sort_func. simpl.
    rewrite Hl. by eexists.
Qed.

(** C8, where the code fails: with two handles managed, setting the sort
    with a null comparator calls through the null pointer. *)
Theorem set_sort_func_null_comparator_two_handles :
  run mpris_prefix scenario_player_id
    [manage_player handle_A; manage_player handle_B;
     set_sort_func None NULL NULL]
    playerctl_player_manager_init
  = Segfault.
Proof. reflexivity. Qed.

(** X15: setting the sort with a null comparator returns exactly when the
    collection has at most one handle, and then with the collection as it
    was, the comparator cleared, and the context and the notifier written;
    on a collection of two handles or more the call jumps through the null
    pointer. *)
Lemma set_sort_func_null_comparator
    (manager : PlayerctlPlayerManagerPrivate)
    (data : gpointer) (notify : GDestroyNotify) :
  playerctl_player_manager_set_sort_func manager None data notify
  = if decide (length (players manager) <= 1)%nat
    then Done (set_sort manager None data notify, [])
    else Segfault.
Proof.
  unfold playerctl_player_manager_set_sort_func. simpl. case_decide.
  - rewrite g_list_sort_with_data_short by done. by destruct manager.
  - by rewrite g_list_sort_with_data_None by lia.
Qed.

(** Managing and moving to the top always return. *)
Lemma move_player_to_top_total
    (manager : PlayerctlPlayerManagerPrivate) (player : PlayerPtr) :
  exists manager',
    playerctl_player_manager_move_player_to_top manager player
    = Done (manager', []).
Proof.
  destruct (move_player_to_top_players manager player) as (m & Hm & _).
  by exists m.
Qed.

(** C10: once the manager is initialized, the initialization returns
    success with the state as it was -- registry, collection, proxy and its
    handlers -- and sets no error. *)
Theorem initable_init_idempotent
    (bus : Bus) (manager : PlayerctlPlayerManagerPrivate) :
  initted manager = true ->
  playerctl_player_manager_initable_init bus manager = (true, manager, None).
Proof.
  intros Hinit. unfold playerctl_player_manager_initable_init.
  by rewrite Hinit.
Qed.

(** An initialization that reports success leaves the manager initialized. *)
Lemma initable_init_success (bus : Bus)
    (manager manager' : PlayerctlPlayerManagerPrivate)
    (error : option GError) :
  playerctl_player_manager_initable_init bus manager
  = (true, manager', error) ->
  initted manager' = true /\ error = None.
Proof.
  unfold playerctl_player_manager_initable_init.
  destruct (initted manager) eqn:Hinit; [by intros [= <- <-] |].
  destruct (g_dbus_proxy_new_for_bus_sync bus); [| done].
  destruct (playerctl_list_players bus); [| done].
  by intros [= <- <-].
Qed.

(** Construction initializes once: the second initialization finds the
    manager initialized, and the handler is connected one time. *)
Example playerctl_player_manager_new_ready :
  playerctl_player_manager_new scenario_bus
  = inl (ready_manager ["spotify"] []).
Proof. reflexivity. Qed.

Example playerctl_player_manager_new_no_bus :
  playerctl_player_manager_new
    {| g_dbus_proxy_new_for_bus_sync := inr "no session bus";
       playerctl_list_players := inl [] |}
  = inr "no session bus".
Proof. reflexivity. Qed.

(** The session of the scenario: what it emits, and what is left. *)
Example scenario_session_trace :
  match run mpris_prefix scenario_player_id scenario_session
          playerctl_player_manager_init with
  | Done (manager, emitted) =>
      (player_names manager, players manager, emitted.*1)
  | Segfault => ([], [], [])
  end
  = ([], [handle_B],
     [g_signal_emit (NAME_APPEARED {| name := "spotify" |});
      g_signal_emit (PLAYER_APPEARED handle_A);
      g_signal_emit (PLAYER_APPEARED handle_B);
      g_signal_emit (PLAYER_VANISHED handle_A);
      g_signal_emit (NAME_VANISHED {| name := "spotify" |})]).
Proof. reflexivity. Qed.

(** * The theorems at work on the scenario *)

Lemma by_priority_total (user_data : gpointer) :
  cmp_total by_priority user_data.
Proof. intros a b. unfold by_priority. lia. Defined.

Lemma vanished_spotify :
  vanished mpris_prefix "org.mpris.MediaPlayer2.spotify" ":1.5" "" "spotify".
Proof. split_and!; [reflexivity | reflexivity | discriminate]. Defined.


(** [spotify] vanishes while tracked and managed through handle A: the
    registry keeps [vlc], the collection keeps handle B. *)
Lemma vanished_tracked_name_witness :
  dbus_name_owner_changed_callback mpris_prefix scenario_player_id
    (ready_manager ["vlc"; "spotify"] [handle_B; handle_A])
    (Some "NameOwnerChanged")
    (GVariant_sss "org.mpris.MediaPlayer2.spotify" ":1.5" "")
  = (ready_manager ["vlc"] [handle_B],
     [(g_signal_emit (PLAYER_VANISHED handle_A),
       ready_manager ["vlc"] [handle_B]);
      (g_signal_emit (NAME_VANISHED {| name := "spotify" |}),
       ready_manager ["vlc"] [handle_B])]).
Proof.
  destruct (vanished_tracked_name_unlinked_and_announced
              mpris_prefix scenario_player_id
              (ready_manager ["vlc"; "spotify"] [handle_B; handle_A])
              "org.mpris.MediaPlayer2.spotify" ":1.5" "" "spotify"
              vanished_spotify)
    as (names1 & names2 & _ & _ & Hnames & _ & _ & Hfound & _).
  - by_computation.
  - destruct Hfound
      as (before & player & after & _ & _ & _ & Hplayers & _ & Heq).
    + exists handle_A. split; [by_computation | reflexivity].
    + assert (player = handle_A) as ->.
      { apply (f_equal snd) in Heq. vm_compute in Heq.
        injection Heq as Hp. by rewrite <- Hp. }
      rewrite Heq. rewrite <- Hnames, <- Hplayers. reflexivity.
Defined.

(** [spotify] vanishes untracked, while handle A, which reports it, is
    managed. *)
Lemma vanished_untracked_name_witness :
  dbus_name_owner_changed_callback mpris_prefix scenario_player_id
    (playerctl_player_manager_manage_player
       playerctl_player_manager_init handle_A).1
    (Some "NameOwnerChanged")
    (GVariant_sss "org.mpris.MediaPlayer2.spotify" ":1.5" "")
  = ((playerctl_player_manager_manage_player
        playerctl_player_manager_init handle_A).1, []).
Proof.
  apply (vanished_untracked_name_ignored mpris_prefix scenario_player_id
           _ _ _ _ "spotify" vanished_spotify).
  by_computation.
Defined.


(** The owner of [spotify] hands the name over. *)
Lemma irrelevant_notification_witness :
  dbus_name_owner_changed_callback mpris_prefix scenario_player_id
    (ready_manager ["spotify"] [handle_A])
    (Some "NameOwnerChanged")
    (GVariant_sss "org.mpris.MediaPlayer2.spotify" ":1.4" ":1.5")
  = (ready_manager ["spotify"] [handle_A], []).
Proof.
  apply (irrelevant_notification_ignored mpris_prefix scenario_player_id).
  right. right. right. split; discriminate.
Defined.

(** The session of the scenario, from a new manager. *)
Lemma no_duplicates_witness :
  exists manager' emitted,
    run mpris_prefix scenario_player_id scenario_session
      playerctl_player_manager_init
    = Done (manager', emitted)
    /\ NoDup (player_names manager') /\ NoDup (players manager').
Proof.
  destruct (no_duplicates_after_calls mpris_prefix scenario_player_id
              scenario_session playerctl_player_manager_init)
    as [Hinv Hdone]; [apply NoDup_nil_2 | apply NoDup_nil_2 |].
  destruct Hdone as (manager' & emitted & Hrun).
  { unfold scenario_session. repeat constructor. }
  exists manager', emitted. split; [exact Hrun |]. by eapply Hinv.
Defined.

(** B is managed next to A, and A a second time. *)
Lemma manage_player_witness :
  (exists l1 l2,
      [handle_A] = l1 ++ l2
      /\ playerctl_player_manager_manage_player
           (ready_manager [] [handle_A]) handle_B
         = (ready_manager [] (l1 ++ handle_B :: l2),
            [(g_signal_emit (PLAYER_APPEARED handle_B),
              ready_manager [] (l1 ++ handle_B :: l2))]))
  /\ playerctl_player_manager_manage_player
       (ready_manager [] [handle_A]) handle_A
     = (ready_manager [] [handle_A], []).
Proof.
  destruct (manage_player_inserts_once (ready_manager [] [handle_A]) handle_B)
    as (_ & _ & Hfresh & _).
  destruct (manage_player_inserts_once (ready_manager [] [handle_A]) handle_A)
    as (_ & Hpresent & _).
  split.
  - destruct Hfresh as (l1 & l2 & Hl & Heq & _);
      [discriminate | by_computation |].
    by exists l1, l2.
  - apply Hpresent. by_computation.
Defined.


(** [A; B; C] is sorted by priority: the manager returned holds
    [B; A; C] and the comparator. *)
Lemma set_sort_func_witness :
  playerctl_player_manager_set_sort_func
    (ready_manager [] [handle_A; handle_B; handle_C])
    (Some by_priority) NULL NULL
  = Done
      ({| initted := true; init_error := None;
          proxy := Some {| g_signal_handlers := 1 |};
          player_names := [];
          players := [handle_B; handle_A; handle_C];
          sort_func := Some by_priority; sort_data := NULL;
          sort_notify := NULL |}, [])
  /\ Sorted (cmp_le by_priority NULL) [handle_B; handle_A; handle_C].
Proof.
  destruct (set_sort_func_replaces_and_sorts
              (ready_manager [] [handle_A; handle_B; handle_C])
              by_priority NULL NULL)
    as ((manager' & sorted & Heq & _ & Hplayers & _ & _ & _ & _ & _ & _
         & Hsorted) & _ & Hexample).
  destruct Hexample as (manager'' & Heq' & Hplayers' & Hrecord);
    [reflexivity | reflexivity |].
  split.
  - rewrite Heq', Hrecord. reflexivity.
  - rewrite Heq' in Heq. injection Heq as Hsame.
    rewrite <- Hplayers', Hsame, Hplayers.
    apply Hsorted, by_priority_total.
Defined.

(** The manager is initialized on the scenario's bus, and again. *)
Lemma initable_init_witness :
  playerctl_player_manager_initable_init scenario_bus
    (playerctl_player_manager_initable_init scenario_bus
       playerctl_player_manager_init).1.2
  = (true,
     (playerctl_player_manager_initable_init scenario_bus
        playerctl_player_manager_init).1.2,
     None).
Proof. apply initable_init_idempotent. reflexivity. Defined.

(** * The branches of the calls *)

Section Branches.
Variable MPRIS_PREFIX : string.
Variable g_object_get_player_id : PlayerPtr -> option string.

Local Abbreviation callback :=
  (dbus_name_owner_changed_callback MPRIS_PREFIX g_object_get_player_id).

(** The owners decide: with a name outside the convention, or owners both
    empty or both not, the handler returns at once. *)
Lemma callback_irrelevant (manager : PlayerctlPlayerManagerPrivate)
    (bus_name previous_owner new_owner : string) :
  (forall suffix, bus_name <> MPRIS_PREFIX +:+ suffix)
  \/ bus_name = MPRIS_PREFIX
  \/ (previous_owner = "" /\ new_owner = "")
  \/ (previous_owner <> "" /\ new_owner <> "") ->
  (forall id, ~ vanished MPRIS_PREFIX bus_name previous_owner new_owner id)
  /\ (forall id, ~ appeared MPRIS_PREFIX bus_name previous_owner new_owner id)
  /\ callback manager (Some "NameOwnerChanged")
       (GVariant_sss bus_name previous_owner new_owner)
     = (manager, []).
Proof.
  intros Hirr.
  assert (player_id_from_bus_name MPRIS_PREFIX (Some bus_name) = None
          \/ (previous_owner = "" /\ new_owner = "")
          \/ (previous_owner <> "" /\ new_owner <> "")) as Hcases.
  { destruct Hirr as [Hlack | [-> | Howners]]; [left | left | by right].
    - destruct (player_id_from_bus_name _ _) as [id|] eqn:Hid; [| done].
      apply player_id_from_bus_name_Some in Hid as [Hid _].
      by destruct (Hlack id).
    - apply player_id_from_bus_name_None. by right. }
  clear Hirr. split_and!.
  - intros id (Hid & Hnew & Hprev).
    destruct Hcases as [Hnone | [[Hp _] | [_ Hn]]]; congruence.
  - intros id (Hid & Hprev & Hnew).
    destruct Hcases as [Hnone | [[_ Hn] | [Hp _]]]; congruence.
  - unfold dbus_name_owner_changed_callback.
    destruct (decide _) as [Hne|_]; [by destruct Hne |].
    destruct (player_id_from_bus_name _ _) as [id|] eqn:Hid; [| done].
    destruct Hcases as [Hnone | [[-> ->] | [Hp Hn]]]; [done | done |].
    apply strlen_zero_false in Hp, Hn. by rewrite Hp, Hn.
Qed.

(** Every call of the handler takes one of its branches. *)
Lemma callback_handler_case (manager : PlayerctlPlayerManagerPrivate)
    (signal_name : option string) (parameters : GVariant) :
  handler_case MPRIS_PREFIX g_object_get_player_id manager
    signal_name parameters (callback manager signal_name parameters).
Proof.
  destruct (decide (signal_name = Some "NameOwnerChanged")) as [->|Hsig].
  2: { unfold dbus_name_owner_changed_callback.
       destruct (decide _) as [_|He]; [by constructor |].
       apply dec_stable, g_strcmp0_eq in He. done. }
  destruct parameters as [bus_name previous_owner new_owner|type_string].
  2: { unfold dbus_name_owner_changed_callback.
       destruct (decide _) as [Hne|_]; [by destruct Hne |]. constructor. }
  destruct (notification_classes MPRIS_PREFIX bus_name previous_owner
              new_owner) as [[id Hv] | [[id Ha] | Hirr]].
  - rewrite (callback_vanished MPRIS_PREFIX g_object_get_player_id
               _ _ _ _ _ Hv).
    destruct (g_list_find_custom _ _ _) as [[entry data]|] eqn:Hfind.
    2: { apply g_list_find_custom_None in Hfind.
         by eapply case_vanished_untracked. }
    apply g_list_find_custom_Some in Hfind
      as (-> & names1 & names2 & Hn & Hnot & ->).
    destruct (manager_remove_managed_player_by_name_cases
                g_object_get_player_id
                (set_player_names manager (names1 ++ names2)) id)
      as [(before & player & after & Hl & Hr & Hbefore & ->)|[Hnone ->]].
    + by eapply case_vanished_managed.
    + by eapply case_vanished_unmanaged.
  - rewrite (callback_appeared MPRIS_PREFIX g_object_get_player_id
               _ _ _ _ _ Ha).
    destruct (g_list_find_custom _ _ _) as [[entry data]|] eqn:Hfind.
    + apply g_list_find_custom_Some in Hfind
        as (-> & names1 & names2 & Hn & _).
      eapply case_appeared_tracked; [done |]. rewrite Hn.
      apply elem_of_app. right. by left.
    + apply g_list_find_custom_None in Hfind.
      by eapply case_appeared_new.
  - destruct (callback_irrelevant manager _ _ _ Hirr) as (Hv & Ha & ->).
    by constructor.
Qed.
End Branches.

(** Managing a handle: nothing for the null handle and for one that is
    managed, and else the handle linked at its place and announced. *)
Lemma manage_player_cases
    (manager : PlayerctlPlayerManagerPrivate) (player : PlayerPtr) :
  ((player = NULL \/ player ∈ players manager)
   /\ playerctl_player_manager_manage_player manager player = (manager, []))
  \/ (player <> NULL /\ (player ∉ players manager)
      /\ exists l1 l2,
           players manager = l1 ++ l2
           /\ playerctl_player_manager_manage_player manager player
              = (set_players manager (l1 ++ player :: l2),
                 [(g_signal_emit (PLAYER_APPEARED player),
                   set_players manager (l1 ++ player :: l2))])
           /\ match sort_func manager with
              | None => l1 = []
              | Some f =>
                  g_list_insert_sorted_real (players manager) player f
                    (sort_data manager) = l1 ++ player :: l2
              end).
Proof.
  unfold playerctl_player_manager_manage_player.
  destruct (decide (player = NULL)) as [->|Hnull];
    [left; split; [by left | done] |].
  destruct (list_find _ (players manager)) as [[i x]|] eqn:Hfind.
  - apply list_find_Some in Hfind as (Hx%list_elem_of_lookup_2 & <- & _).
    left. split; [by right | done].
  - apply list_find_None in Hfind. rewrite Forall_forall in Hfind.
    right. split_and!; [done | intros Hin; by eapply Hfind |].
    destruct (sort_func manager) as [f|]; simpl.
    + destruct (g_list_insert_sorted_real_split f (sort_data manager) player
                  (players manager)) as (l1 & l2 & Hl & Heq & _).
      exists l1, l2. by rewrite Heq.
    + by exists [], (players manager).
Qed.

(** Moving a handle to the top: nothing for a handle that is not managed,
    and else the handle in front, and the collection sorted when a
    comparator is in force. *)
Lemma move_player_to_top_cases
    (manager : PlayerctlPlayerManagerPrivate) (player : PlayerPtr) :
  ((player ∉ players manager)
   /\ playerctl_player_manager_move_player_to_top manager player
      = Done (manager, []))
  \/ (exists l1 l2,
         players manager = l1 ++ player :: l2
         /\ (player ∉ l1)
         /\ match sort_func manager with
            | None =>
                playerctl_player_manager_move_player_to_top manager player
                = Done (set_players manager (player :: l1 ++ l2), [])
            | Some f =>
                exists sorted,
                  g_list_sort_with_data (player :: l1 ++ l2) (Some f)
                    (sort_data manager) = Done sorted
                  /\ playerctl_player_manager_move_player_to_top
                       manager player
                     = Done (set_players manager sorted, [])
            end).
Proof.
  unfold playerctl_player_manager_move_player_to_top.
  destruct (list_find _ (players manager)) as [[i current]|] eqn:Hfind.
  - right.
    apply list_find_split in Hfind as (l1 & l2 & Hl & _ & -> & Hbefore & Hdel).
    exists l1, l2. split_and!; [done | |].
    { intros H1. rewrite Forall_forall in Hbefore. by apply (Hbefore _ H1). }
    simpl. rewrite Hdel. unfold g_list_concat. simpl.
    destruct (sort_func manager) as [f|]; [| done].
    destruct (g_list_sort_with_data_Some f (sort_data manager)
                (player :: l1 ++ l2)) as (sorted & Hs & _).
    exists sorted. by rewrite Hs, bind_Done.
  - left. split; [| done]. apply list_find_None in Hfind.
    rewrite Forall_forall in Hfind. intros Hin. by eapply Hfind.
Qed.

(** * Further properties of the handler *)

Section HandlerProperties.
Variable MPRIS_PREFIX : string.
Variable g_object_get_player_id : PlayerPtr -> option string.

Local Abbreviation callback :=
  (dbus_name_owner_changed_callback MPRIS_PREFIX g_object_get_player_id).

Local Ltac handler_branches manager signal_name parameters manager' trace Hcb :=
  destruct (dbus_name_owner_changed_callback MPRIS_PREFIX
              g_object_get_player_id manager signal_name parameters)
    as [manager' trace] eqn:Hcb;
  let H := fresh "Hcase" in
  pose proof (callback_handler_case MPRIS_PREFIX g_object_get_player_id
                manager signal_name parameters) as H;
  rewrite Hcb in H; inversion H; subst; clear H.

(** X1: the handler does something only for an ownership change of a name
    under the prefix: a call returns the state as it was with nothing
    emitted, or logs one warning about parameters that are no triple of
    strings, or else was given the signal [NameOwnerChanged] with a bus name
    made of the prefix and a non-empty identifier and with exactly one of
    the two owners empty. *)
Theorem handler_acts_only_on_owner_changes
    (manager : PlayerctlPlayerManagerPrivate)
    (signal_name : option string) (parameters : GVariant) :
  callback manager signal_name parameters = (manager, [])
  \/ (exists type_string,
         signal_name = Some "NameOwnerChanged"
         /\ parameters = GVariant_other type_string
         /\ callback manager signal_name parameters
            = (manager, [(g_warning type_string, manager)]))
  \/ (exists bus_name previous_owner new_owner id,
         signal_name = Some "NameOwnerChanged"
         /\ parameters = GVariant_sss bus_name previous_owner new_owner
         /\ bus_name = MPRIS_PREFIX +:+ id /\ id <> ""
         /\ ((previous_owner = "" /\ new_owner <> "")
             \/ (previous_owner <> "" /\ new_owner = ""))).
Proof.
  handler_branches manager signal_name parameters manager' trace Hcb;
    try (by left); try (right; left; by eexists).
  - right. right.
    match goal with H : vanished _ _ _ _ _ |- _ =>
      destruct H as ((-> & Hid)%player_id_from_bus_name_Some & -> & Hprev) end.
    eexists _, _, _, _. split_and!; [done.. |]. by right.
  - right. right.
    match goal with H : vanished _ _ _ _ _ |- _ =>
      destruct H as ((-> & Hid)%player_id_from_bus_name_Some & -> & Hprev) end.
    eexists _, _, _, _. split_and!; [done.. |]. by right.
  - right. right.
    match goal with H : appeared _ _ _ _ _ |- _ =>
      destruct H as ((-> & Hid)%player_id_from_bus_name_Some & -> & Hnew) end.
    eexists _, _, _, _. split_and!; [done.. |]. by left.
Qed.

(** X2: a notification about one identifier leaves every other identifier
    of the registry where it is: tracked if it was, not tracked if it was
    not.  Of the identifier itself: after an appeared notification it is
    tracked, and after a vanished one it is not, the registry having no
    duplicates. *)
Theorem registry_follows_owner
    (manager : PlayerctlPlayerManagerPrivate)
    (bus_name previous_owner new_owner id : string) :
  player_id_from_bus_name MPRIS_PREFIX (Some bus_name) = Some id ->
  (forall other,
      other <> id ->
      other ∈ player_names
                (callback manager (Some "NameOwnerChanged")
                   (GVariant_sss bus_name previous_owner new_owner)).1
      <-> other ∈ player_names manager)
  /\ (previous_owner = "" -> new_owner <> "" ->
      id ∈ player_names
             (callback manager (Some "NameOwnerChanged")
                (GVariant_sss bus_name previous_owner new_owner)).1)
  /\ (previous_owner <> "" -> new_owner = "" ->
      NoDup (player_names manager) ->
      id ∉ player_names
             (callback manager (Some "NameOwnerChanged")
                (GVariant_sss bus_name previous_owner new_owner)).1).
Proof.
  intros Hid.
  assert (forall id', vanished MPRIS_PREFIX bus_name previous_owner
                        new_owner id' -> id' = id) as Hv
    by (intros id' (Hid' & _); congruence).
  assert (forall id', appeared MPRIS_PREFIX bus_name previous_owner
                        new_owner id' -> id' = id) as Ha
    by (intros id' (Hid' & _); congruence).
  handler_branches manager (Some "NameOwnerChanged")
    (GVariant_sss bus_name previous_owner new_owner) manager' trace Hcb;
    simpl;
    repeat match goal with
      | H : vanished _ _ _ _ ?i |- _ =>
          pose proof (Hv _ H); subst i; destruct H as (_ & Hnew & Hprev)
      | H : appeared _ _ _ _ ?i |- _ =>
          pose proof (Ha _ H); subst i; destruct H as (_ & Hprev & Hnew)
      end.
  - done.
  - split_and!; [done | |].
    + intros Hp Hn.
      match goal with H : forall i, ~ appeared _ _ _ _ i |- _ =>
        destruct (H id) end.
      by split_and!.
    + intros Hp Hn.
      match goal with H : forall i, ~ vanished _ _ _ _ i |- _ =>
        destruct (H id) end.
      by split_and!.
  - split_and!; [done | intros Hp Hn; congruence | done].
  - match goal with H : player_names manager = _ |- _ => rewrite H end.
    split_and!.
    + intros other Hother. rewrite !elem_of_app, !elem_of_cons. tauto.
    + intros Hp Hn; congruence.
    + intros _ _ (_ & Hdisj & [Hx _]%NoDup_cons)%NoDup_app.
      intros [H1 | H2]%elem_of_app; [| done].
      apply (Hdisj _ H1). by left.
  - match goal with H : player_names manager = _ |- _ => rewrite H end.
    split_and!.
    + intros other Hother. rewrite !elem_of_app, !elem_of_cons. tauto.
    + intros Hp Hn; congruence.
    + intros _ _ (_ & Hdisj & [Hx _]%NoDup_cons)%NoDup_app.
      intros [H1 | H2]%elem_of_app; [| done].
      apply (Hdisj _ H1). by left.
  - split_and!; [done | done | intros Hp Hn; congruence].
  - split_and!.
    + intros other Hother. rewrite elem_of_cons. tauto.
    + intros _ _. by left.
    + intros Hp Hn; congruence.
Qed.
End HandlerProperties.

(** * How the handler and [manage] compose *)

Section Composition.
Variable MPRIS_PREFIX : string.
Variable g_object_get_player_id : PlayerPtr -> option string.

Local Abbreviation callback :=
  (dbus_name_owner_changed_callback MPRIS_PREFIX g_object_get_player_id).

(** The search of the registry stops on its first link, when that link
    holds the identifier. *)
Lemma g_list_find_custom_head (names : list string) (id : string) :
  g_list_find_custom (id :: names) (Some id)
    (fun a b => g_strcmp0 (Some a) b)
  = Some (0%nat, id).
Proof.
  unfold g_list_find_custom. apply list_find_Some. split_and!.
  - done.
  - by apply g_strcmp0_eq.
  - intros j y _ Hj. lia.
Qed.

(** A list cut before the first element with a property, in two ways. *)
Lemma first_split_unique {A : Type} (P : A -> Prop)
    (l1 l2 k1 k2 : list A) (x y : A) :
  l1 ++ x :: l2 = k1 ++ y :: k2 ->
  P x -> P y -> Forall (fun z => ~ P z) l1 -> Forall (fun z => ~ P z) k1 ->
  l1 = k1 /\ x = y /\ l2 = k2.
Proof.
  revert k1. induction l1 as [|a l1 IH]; intros [|b k1] Heq Hx Hy H1 H2;
    simplify_eq/=.
  - done.
  - apply Forall_cons in H2 as [Hb _]. done.
  - apply Forall_cons in H1 as [Ha _]. done.
  - apply Forall_cons in H1 as [_ H1]. apply Forall_cons in H2 as [_ H2].
    destruct (IH k1) as (-> & -> & ->); done.
Qed.

(** X3: a name that appears and then vanishes, never tracked before and
    reported by no managed handle, leaves the manager exactly as it was;
    name-appeared is emitted for it once, then name-vanished once, and no
    player signal. *)
Theorem appear_then_vanish_restores
    (manager : PlayerctlPlayerManagerPrivate)
    (bus_name owner id : string) :
  player_id_from_bus_name MPRIS_PREFIX (Some bus_name) = Some id ->
  owner <> "" ->
  id ∉ player_names manager ->
  (forall p, p ∈ players manager -> g_object_get_player_id p <> Some id) ->
  (callback
     (callback manager (Some "NameOwnerChanged")
        (GVariant_sss bus_name "" owner)).1
     (Some "NameOwnerChanged") (GVariant_sss bus_name owner "")).1
  = manager
  /\ (callback manager (Some "NameOwnerChanged")
        (GVariant_sss bus_name "" owner)).2.*1
     = [g_signal_emit (NAME_APPEARED {| name := id |})]
  /\ (callback
        (callback manager (Some "NameOwnerChanged")
           (GVariant_sss bus_name "" owner)).1
        (Some "NameOwnerChanged") (GVariant_sss bus_name owner "")).2.*1
     = [g_signal_emit (NAME_VANISHED {| name := id |})].
Proof.
  intros Hid Howner Hnotin Hplayers.
  rewrite (callback_appeared MPRIS_PREFIX g_object_get_player_id
             manager bus_name "" owner id) by done.
  apply g_list_find_custom_None in Hnotin. rewrite Hnotin. simpl.
  rewrite (callback_vanished MPRIS_PREFIX g_object_get_player_id
             _ bus_name owner "" id) by done.
  simpl player_names. unfold g_list_prepend.
  rewrite g_list_find_custom_head. simpl g_list_remove_link.
  destruct (manager_remove_managed_player_by_name_cases
              g_object_get_player_id
              (set_player_names
                 (set_player_names manager (id :: player_names manager))
                 (player_names manager)) id)
    as [(before & player & after & Hl & Hr & _)|[_ ->]].
  - destruct (Hplayers player); [| done]. simpl in Hl. rewrite Hl.
    apply elem_of_app. right. by left.
  - simpl. split_and!; [| done..]. by destruct manager.
Qed.

(** X4: without a comparator, a handle that is managed and whose tracked
    name then vanishes is the handle the handler unlinks: the collection is
    again what it was before the handle was managed, and the emissions are
    player-appeared for the handle, then player-vanished for it and
    name-vanished for the name. *)
Theorem manage_then_vanish_restores
    (manager : PlayerctlPlayerManagerPrivate) (player : PlayerPtr)
    (bus_name owner id : string) :
  sort_func manager = None ->
  player <> NULL -> player ∉ players manager ->
  g_object_get_player_id player = Some id ->
  player_id_from_bus_name MPRIS_PREFIX (Some bus_name) = Some id ->
  owner <> "" ->
  id ∈ player_names manager ->
  players
    (callback (playerctl_player_manager_manage_player manager player).1
       (Some "NameOwnerChanged") (GVariant_sss bus_name owner "")).1
  = players manager
  /\ (playerctl_player_manager_manage_player manager player).2.*1
     = [g_signal_emit (PLAYER_APPEARED player)]
  /\ (callback (playerctl_player_manager_manage_player manager player).1
        (Some "NameOwnerChanged") (GVariant_sss bus_name owner "")).2.*1
     = [g_signal_emit (PLAYER_VANISHED player);
        g_signal_emit (NAME_VANISHED {| name := id |})].
Proof.
  intros Hsort Hnull Hfresh Hreports Hid Howner Htracked.
  destruct (manage_player_cases manager player)
    as [[[?|?] _]|(_ & _ & l1 & l2 & Hl & -> & Hplace)]; [done.. |].
  rewrite Hsort in Hplace. subst l1. simpl in Hl. subst l2. simpl.
  rewrite (callback_vanished MPRIS_PREFIX g_object_get_player_id
             _ bus_name owner "" id) by done.
  simpl player_names.
  destruct (g_list_find_custom _ _ _) as [[entry data]|] eqn:Hfind.
  2: { by apply g_list_find_custom_None in Hfind. }
  apply g_list_find_custom_Some in Hfind as (-> & n1 & n2 & _ & _ & ->).
  destruct (manager_remove_managed_player_by_name_cases
              g_object_get_player_id
              (set_player_names
                 (set_players manager (player :: players manager))
                 (n1 ++ n2)) id)
    as [(before & p & after & Hl & Hr & Hbefore & ->)|[Hnone _]].
  - simpl in Hl.
    destruct (first_split_unique
                (fun p => g_object_get_player_id p = Some id)
                [] (players manager) before after player p)
      as (<- & <- & <-); by try constructor.
  - simpl in Hnone. apply Forall_cons in Hnone as [Hp _]. done.
Qed.

(** X5: when two handles of the collection report the name that vanishes,
    the handler unlinks the first one only; the second stays managed, and
    the same notification once more changes nothing and emits nothing, the
    registry having no duplicates. *)
Theorem vanished_unlinks_first_handle_only
    (manager : PlayerctlPlayerManagerPrivate)
    (bus_name owner id : string)
    (before mid after : list PlayerPtr) (p q : PlayerPtr) :
  player_id_from_bus_name MPRIS_PREFIX (Some bus_name) = Some id ->
  owner <> "" ->
  id ∈ player_names manager -> NoDup (player_names manager) ->
  players manager = before ++ p :: mid ++ q :: after ->
  g_object_get_player_id p = Some id ->
  g_object_get_player_id q = Some id ->
  Forall (fun x => g_object_get_player_id x <> Some id) before ->
  players
    (callback manager (Some "NameOwnerChanged")
       (GVariant_sss bus_name owner "")).1
  = before ++ mid ++ q :: after
  /\ callback
       (callback manager (Some "NameOwnerChanged")
          (GVariant_sss bus_name owner "")).1
       (Some "NameOwnerChanged") (GVariant_sss bus_name owner "")
     = ((callback manager (Some "NameOwnerChanged")
           (GVariant_sss bus_name owner "")).1, []).
Proof.
  intros Hid Howner Htracked Hnodup Hl Hp Hq Hbefore.
  assert (vanished MPRIS_PREFIX bus_name owner "" id) as Hv by done.
  rewrite (callback_vanished MPRIS_PREFIX g_object_get_player_id
             manager bus_name owner "" id Hv).
  destruct (g_list_find_custom (player_names manager) _ _)
    as [[entry data]|] eqn:Hfind.
  2: { by apply g_list_find_custom_None in Hfind. }
  apply g_list_find_custom_Some in Hfind as (-> & n1 & n2 & Hn & Hn1 & ->).
  destruct (manager_remove_managed_player_by_name_cases
              g_object_get_player_id
              (set_player_names manager (n1 ++ n2)) id)
    as [(before' & p' & after' & Hl' & Hr & Hbefore' & ->)|[Hnone _]].
  - simpl in Hl'. rewrite Hl in Hl'.
    destruct (first_split_unique
                (fun p => g_object_get_player_id p = Some id)
                before (mid ++ q :: after) before' after' p p')
      as (<- & <- & <-); [done.. |].
    cbn [fst snd]. split; [done |].
    rewrite (callback_vanished MPRIS_PREFIX g_object_get_player_id
               _ bus_name owner "" id Hv).
    cbn [player_names set_players set_player_names].
    assert (id ∉ n1 ++ n2) as Hgone.
    { rewrite Hn in Hnodup.
      apply NoDup_app in Hnodup as (_ & Hdisj & [Hx _]%NoDup_cons).
      intros [H1 | H2]%elem_of_app; [| done]. apply (Hdisj _ H1). by left. }
    apply g_list_find_custom_None in Hgone. by rewrite Hgone.
  - simpl in Hnone. rewrite Hl in Hnone.
    apply Forall_app in Hnone as [_ [Hp' _]%Forall_cons]. done.
Qed.
End Composition.

(** * Counting and order *)

Lemma emissions_nil (s : Signal) : emissions s [] = 0%nat.
Proof. reflexivity. Qed.

Lemma emissions_cons (s : Signal) (e : Effect)
    (seen : PlayerctlPlayerManagerPrivate) (trace : Trace) :
  emissions s ((e, seen) :: trace)
  = ((if decide (e = g_signal_emit s) then 1 else 0) + emissions s trace)%nat.
Proof.
  unfold emissions. rewrite filter_cons. simpl. by case_decide.
Qed.

Lemma emissions_app (s : Signal) (t1 t2 : Trace) :
  emissions s (t1 ++ t2) = (emissions s t1 + emissions s t2)%nat.
Proof. unfold emissions. by rewrite filter_app, length_app. Qed.

Lemma holds_middle {A : Type} `{EqDecision A} (h x : A) (l1 l2 : list A) :
  x ∉ l1 ++ l2 ->
  holds h (l1 ++ x :: l2)
  = ((if decide (h = x) then 1 else 0) + holds h (l1 ++ l2))%nat.
Proof.
  intros Hx. unfold holds.
  destruct (decide (h = x)) as [->|Hne].
  - rewrite decide_True, decide_False; [done | done |].
    apply elem_of_app. right. by left.
  - destruct (decide (h ∈ l1 ++ l2)) as [Hin|Hnotin].
    + rewrite decide_True; [done |].
      apply elem_of_app in Hin as [?|?]; apply elem_of_app; [by left |].
      right. by right.
    + rewrite decide_False; [done |]. intros Hin. apply Hnotin.
      apply elem_of_app in Hin as [?|[?|?]%elem_of_cons];
        [apply elem_of_app; by left | done | apply elem_of_app; by right].
Qed.

Lemma holds_cons {A : Type} `{EqDecision A} (h x : A) (l : list A) :
  x ∉ l ->
  holds h (x :: l) = ((if decide (h = x) then 1 else 0) + holds h l)%nat.
Proof. apply (holds_middle h x [] l). Qed.

Lemma holds_Permutation {A : Type} `{EqDecision A} (h : A) (l k : list A) :
  l ≡ₚ k -> holds h l = holds h k.
Proof.
  intros Hperm. unfold holds.
  destruct (decide (h ∈ l)) as [Hin|Hnotin].
  - rewrite decide_True; [done |]. by rewrite <- Hperm.
  - rewrite decide_False; [done |]. by rewrite <- Hperm.
Qed.

Lemma NoDup_middle {A : Type} (x : A) (l1 l2 : list A) :
  NoDup (l1 ++ x :: l2) -> x ∉ l1 ++ l2.
Proof.
  intros (_ & Hdisj & [Hx _]%NoDup_cons)%NoDup_app.
  intros [H1 | H2]%elem_of_app; [| done]. apply (Hdisj _ H1). by left.
Qed.

(** Unlinking one handle keeps a sorted collection sorted, for a transitive
    comparator. *)
Lemma Sorted_unlink (f : GCompareDataFunc) (user_data : gpointer)
    (x : gpointer) (l1 l2 : list gpointer) :
  cmp_trans f user_data ->
  Sorted (cmp_le f user_data) (l1 ++ x :: l2) ->
  Sorted (cmp_le f user_data) (l1 ++ l2).
Proof.
  intros Htrans Hs.
  assert (Transitive (cmp_le f user_data)) as Ht
    by (intros a b c; apply Htrans).
  apply Sorted_StronglySorted in Hs; [| done].
  apply StronglySorted_Sorted.
  apply StronglySorted_app in Hs as (Hcross & H1 & [Hx H2]%StronglySorted_cons).
  apply StronglySorted_app. split_and!; [| done..].
  intros a b Ha Hb. apply Hcross; [done |]. by right.
Qed.

(** What a returning [set_sort_func] call returns. *)
Lemma set_sort_func_cases (manager manager' : PlayerctlPlayerManagerPrivate)
    (f : option GCompareDataFunc) (data : gpointer) (notify : GDestroyNotify)
    (trace : Trace) :
  playerctl_player_manager_set_sort_func manager f data notify
  = Done (manager', trace) ->
  exists sorted,
    g_list_sort_with_data (players manager) f data = Done sorted
    /\ manager' = set_players (set_sort manager f data notify) sorted
    /\ trace = [].
Proof.
  unfold playerctl_player_manager_set_sort_func. simpl.
  destruct (g_list_sort_with_data (players manager) f data) as [sorted|];
    [| done].
  rewrite bind_Done. intros [= <- <-]. by exists sorted.
Qed.

(** * Further properties of calls and of sequences of calls *)

Section Sequences.
Variable MPRIS_PREFIX : string.
Variable g_object_get_player_id : PlayerPtr -> option string.

Local Abbreviation callback :=
  (dbus_name_owner_changed_callback MPRIS_PREFIX g_object_get_player_id).
Local Abbreviation step_call := (step MPRIS_PREFIX g_object_get_player_id).
Local Abbreviation run_calls := (run MPRIS_PREFIX g_object_get_player_id).

Local Ltac handler_result Hcb :=
  match type of Hcb with
  | dbus_name_owner_changed_callback _ _ ?m ?s ?p = _ =>
      let H := fresh "Hcase" in
      pose proof (callback_handler_case MPRIS_PREFIX g_object_get_player_id
                    m s p) as H;
      rewrite Hcb in H; inversion H; subst; clear H
  end.

Lemma run_cons_inv (c : Call) (cs : list Call)
    (manager manager' : PlayerctlPlayerManagerPrivate) (trace : Trace) :
  run_calls (c :: cs) manager = Done (manager', trace) ->
  exists manager1 trace1 trace2,
    step_call c manager = Done (manager1, trace1)
    /\ run_calls cs manager1 = Done (manager', trace2)
    /\ trace = trace1 ++ trace2.
Proof.
  simpl. destruct (step _ _ c manager) as [[manager1 trace1]|]; [| done].
  rewrite bind_Done.
  destruct (run _ _ cs manager1) as [[manager2 trace2]|] eqn:Hrun; [| done].
  rewrite bind_Done. intros [= <- <-]. by exists manager1, trace1, trace2.
Qed.

(** X6: every effect of a call is recorded with the state the call returns:
    a signal is emitted, and a warning logged, only when the call has
    finished changing the manager. *)
Theorem emissions_see_returned_state (c : Call)
    (manager manager' : PlayerctlPlayerManagerPrivate) (trace : Trace) :
  step_call c manager = Done (manager', trace) ->
  Forall (fun e => e.2 = manager') trace.
Proof.
  destruct c as [signal_name parameters|player|player|f data notify];
    cbn [step].
  - intros [= Hcb]. handler_result Hcb; by repeat constructor.
  - intros [= Hm].
    destruct (manage_player_cases manager player)
      as [[_ Heq]|(_ & _ & l1 & l2 & _ & Heq & _)];
      rewrite Heq in Hm; injection Hm as <- <-; by repeat constructor.
  - destruct (move_player_to_top_players manager player) as (m & -> & _).
    intros [= <- <-]. constructor.
  - intros (sorted & _ & _ & ->)%set_sort_func_cases. constructor.
Qed.

(** X7: what each call leaves alone.  No call changes the initialization
    flag, the stored error or the proxy.  The handler keeps the sort
    configuration and adds no handle: the collection it returns is the one
    it found with at most one handle unlinked.  Managing keeps the registry
    and the sort configuration, and drops no handle.  Moving to the top and
    setting the sort keep the registry, emit nothing and return a
    permutation of the collection; moving keeps the sort configuration. *)
Theorem calls_leave_the_rest_alone (c : Call)
    (manager manager' : PlayerctlPlayerManagerPrivate) (trace : Trace) :
  step_call c manager = Done (manager', trace) ->
  initted manager' = initted manager
  /\ init_error manager' = init_error manager
  /\ proxy manager' = proxy manager
  /\ match c with
     | g_signal _ _ =>
         sort_func manager' = sort_func manager
         /\ sort_data manager' = sort_data manager
         /\ sort_notify manager' = sort_notify manager
         /\ players manager' `sublist_of` players manager
         /\ (length (players manager) <= S (length (players manager')))%nat
     | manage_player player =>
         player_names manager' = player_names manager
         /\ sort_func manager' = sort_func manager
         /\ sort_data manager' = sort_data manager
         /\ sort_notify manager' = sort_notify manager
         /\ (players manager' = players manager
             \/ players manager' ≡ₚ player :: players manager)
     | move_player_to_top _ =>
         player_names manager' = player_names manager
         /\ sort_func manager' = sort_func manager
         /\ sort_data manager' = sort_data manager
         /\ sort_notify manager' = sort_notify manager
         /\ players manager' ≡ₚ players manager
         /\ trace = []
     | set_sort_func _ _ _ =>
         player_names manager' = player_names manager
         /\ players manager' ≡ₚ players manager
         /\ trace = []
     end.
Proof.
  destruct c as [signal_name parameters|player|player|f data notify];
    cbn [step].
  - intros [= Hcb]. handler_result Hcb; simpl; split_and!; try done; try lia.
    + match goal with H : players manager = _ |- _ => rewrite H end.
      apply sublist_app; [reflexivity | by apply sublist_cons].
    + match goal with H : players manager = _ |- _ => rewrite H end.
      rewrite !length_app. simpl. lia.
  - intros [= Hm].
    destruct (manage_player_cases manager player)
      as [[_ Heq]|(_ & _ & l1 & l2 & Hl & Heq & _)];
      rewrite Heq in Hm; injection Hm as <- <-; simpl;
      split_and!; try done; [by left |].
    right. rewrite Hl. symmetry. apply Permutation_middle.
  - unfold playerctl_player_manager_move_player_to_top.
    destruct (list_find _ (players manager)) as [[i current]|] eqn:Hfind.
    2: { by intros [= <- <-]. }
    apply list_find_split in Hfind as (l1 & l2 & Hl & _ & _ & _ & Hdel).
    simpl. rewrite Hdel. unfold g_list_concat. simpl.
    assert (current :: l1 ++ l2 ≡ₚ players manager) as Hperm
      by (rewrite Hl; apply Permutation_middle).
    destruct (sort_func manager) as [f|] eqn:Hf.
    + destruct (g_list_sort_with_data_Some f (sort_data manager)
                  (current :: l1 ++ l2)) as (r & -> & Hr).
      rewrite bind_Done. intros [= <- <-]. simpl.
      split_and!; try done. by rewrite Hr.
    + intros [= <- <-]. simpl. by split_and!.
  - intros Hset.
    destruct (set_sort_func_players _ _ _ _ _ _ Hset) as [Hperm Hnames].
    apply set_sort_func_cases in Hset as (sorted & _ & -> & ->).
    simpl in *. by split_and!.
Qed.

(** One call keeps the emissions in agreement with the states. *)
Lemma step_consistent (c : Call)
    (manager manager' : PlayerctlPlayerManagerPrivate) (trace : Trace) :
  step_call c manager = Done (manager', trace) ->
  NoDup (player_names manager) -> NoDup (players manager) ->
  Forall consistent trace.
Proof.
  intros Hstep Hnames Hplayers.
  destruct c as [signal_name parameters|player|player|f data notify];
    cbn [step] in Hstep.
  - injection Hstep as Hcb. handler_result Hcb;
      repeat (constructor; unfold consistent; simpl); try done.
    + match goal with H : player_names manager = _ |- _ =>
        rewrite H in Hnames end. by apply NoDup_middle.
    + match goal with H : players manager = _ |- _ =>
        rewrite H in Hplayers end. by apply NoDup_middle.
    + match goal with H : player_names manager = _ |- _ =>
        rewrite H in Hnames end. by apply NoDup_middle.
  - injection Hstep as Hm.
    destruct (manage_player_cases manager player)
      as [[_ Heq]|(_ & _ & l1 & l2 & _ & Heq & _)];
      rewrite Heq in Hm; injection Hm as <- <-; [constructor |].
    repeat constructor. unfold consistent. simpl.
    apply elem_of_app. right. by left.
  - destruct (move_player_to_top_players manager player) as (m & Hm & _).
    rewrite Hm in Hstep. injection Hstep as <- <-. constructor.
  - apply set_sort_func_cases in Hstep as (sorted & _ & _ & ->). constructor.
Qed.

(** X8: along a sequence of calls that starts without duplicates, every
    emission agrees with the manager its subscribers find: at name-appeared
    the name is in the registry and at name-vanished it is not; at
    player-appeared the handle is in the collection and at player-vanished it
    is not. *)
Theorem emissions_agree_with_state (cs : list Call)
    (manager manager' : PlayerctlPlayerManagerPrivate) (trace : Trace) :
  NoDup (player_names manager) -> NoDup (players manager) ->
  run_calls cs manager = Done (manager', trace) ->
  Forall consistent trace.
Proof.
  revert manager trace.
  induction cs as [|c cs IH]; intros manager trace Hnames Hplayers.
  - intros [= <- <-]. constructor.
  - intros (manager1 & trace1 & trace2 & Hstep & Hrun & ->)%run_cons_inv.
    apply Forall_app. split.
    + by eapply step_consistent.
    + destruct (step_NoDup _ _ _ _ _ _ Hstep Hnames Hplayers) as [Hn1 Hp1].
      by eapply IH.
Qed.

(** One call keeps the balance of emissions and membership. *)
Lemma step_balance (c : Call)
    (manager manager' : PlayerctlPlayerManagerPrivate) (trace : Trace) :
  step_call c manager = Done (manager', trace) ->
  NoDup (player_names manager) -> NoDup (players manager) ->
  (forall player,
      (emissions (PLAYER_APPEARED player) trace
       + holds player (players manager)
       = emissions (PLAYER_VANISHED player) trace
         + holds player (players manager'))%nat)
  /\ (forall id,
        (emissions (NAME_APPEARED {| name := id |}) trace
         + holds id (player_names manager)
         = emissions (NAME_VANISHED {| name := id |}) trace
           + holds id (player_names manager'))%nat).
Proof.
  intros Hstep Hnames Hplayers.
  destruct c as [signal_name parameters|player|player|f data notify];
    cbn [step] in Hstep.
  - injection Hstep as Hcb. handler_result Hcb; simpl;
      repeat match goal with
        | H : player_names manager = _ |- _ =>
            rewrite H in *; apply NoDup_middle in Hnames
        | H : players manager = _ |- _ =>
            rewrite H in *; apply NoDup_middle in Hplayers
        end;
      (split; intros x;
       rewrite ?emissions_cons, ?emissions_nil, ?holds_middle, ?holds_cons
         by done;
       repeat case_decide; simplify_eq; lia).
  - injection Hstep as Hm.
    destruct (manage_player_cases manager player)
      as [[_ Heq]|(_ & Hfresh & l1 & l2 & Hl & Heq & _)];
      rewrite Heq in Hm; injection Hm as <- <-; [by split |].
    simpl. rewrite Hl in *.
    split; intros x;
      rewrite ?emissions_cons, ?emissions_nil, ?holds_middle by done;
      repeat case_decide; simplify_eq; lia.
  - destruct (move_player_to_top_players manager player)
      as (m & Hm & Hperm & Hn).
    rewrite Hm in Hstep. injection Hstep as <- <-.
    split; intros x; rewrite !emissions_nil; [| by rewrite Hn].
    by rewrite (holds_Permutation x _ _ Hperm).
  - destruct (set_sort_func_players _ _ _ _ _ _ Hstep) as [Hperm Hn].
    apply set_sort_func_cases in Hstep as (sorted & _ & _ & ->).
    split; intros x; rewrite !emissions_nil; [| by rewrite Hn].
    by rewrite (holds_Permutation x _ _ Hperm).
Qed.

(** X9: the signals account for the two sequences.  Along a sequence of
    calls that starts without duplicates, for every handle the emissions of
    player-appeared, plus one when the handle was managed at the start,
    equal the emissions of player-vanished, plus one when it is managed at
    the end; and likewise for every identifier, name-appeared, name-vanished
    and the registry. *)
Theorem emissions_balance_membership (cs : list Call)
    (manager manager' : PlayerctlPlayerManagerPrivate) (trace : Trace) :
  NoDup (player_names manager) -> NoDup (players manager) ->
  run_calls cs manager = Done (manager', trace) ->
  (forall player,
      (emissions (PLAYER_APPEARED player) trace
       + holds player (players manager)
       = emissions (PLAYER_VANISHED player) trace
         + holds player (players manager'))%nat)
  /\ (forall id,
        (emissions (NAME_APPEARED {| name := id |}) trace
         + holds id (player_names manager)
         = emissions (NAME_VANISHED {| name := id |}) trace
           + holds id (player_names manager'))%nat).
Proof.
  revert manager trace.
  induction cs as [|c cs IH]; intros manager trace Hnames Hplayers.
  - intros [= <- <-]. by split.
  - intros (manager1 & trace1 & trace2 & Hstep & Hrun & ->)%run_cons_inv.
    destruct (step_NoDup _ _ _ _ _ _ Hstep Hnames Hplayers) as [Hn1 Hp1].
    destruct (step_balance _ _ _ _ Hstep Hnames Hplayers) as [Hb1 Hb2].
    destruct (IH _ _ Hn1 Hp1 Hrun) as [Hr1 Hr2].
    split; intros x; rewrite !emissions_app.
    + specialize (Hb1 x). specialize (Hr1 x). lia.
    + specialize (Hb2 x). specialize (Hr2 x). lia.
Qed.
End Sequences.

(** * The collection stays in the order of the comparator *)

Section Order.
Variable MPRIS_PREFIX : string.
Variable g_object_get_player_id : PlayerPtr -> option string.

Lemma step_ordered (c : Call)
    (manager manager' : PlayerctlPlayerManagerPrivate) (trace : Trace) :
  passes_order c -> ordered_config manager ->
  step MPRIS_PREFIX g_object_get_player_id c manager
  = Done (manager', trace) ->
  ordered_config manager'.
Proof.
  intros Hc Hord.
  destruct c as [signal_name parameters|player|player|f data notify];
    cbn [step].
  - intros [= Hcb].
    pose proof (callback_handler_case MPRIS_PREFIX g_object_get_player_id
                  manager signal_name parameters) as Hcase.
    rewrite Hcb in Hcase. inversion Hcase; subst; clear Hcase; try done.
    unfold ordered_config in *. simpl.
    destruct (sort_func manager) as [f|]; [| done].
    destruct Hord as (Htotal & Htrans & Hsorted). split_and!; [done.. |].
    match goal with H : players manager = _ |- _ => rewrite H in Hsorted end.
    by eapply Sorted_unlink.
  - intros [= Hm].
    destruct (manage_player_cases manager player)
      as [[_ Heq]|(_ & _ & l1 & l2 & _ & Heq & Hplace)];
      rewrite Heq in Hm; injection Hm as <- <-; [done |].
    unfold ordered_config in *. simpl.
    destruct (sort_func manager) as [f|]; [| done].
    destruct Hord as (Htotal & Htrans & Hsorted). split_and!; [done.. |].
    rewrite <- Hplace. by apply g_list_insert_sorted_real_sorted.
  - destruct (move_player_to_top_cases manager player)
      as [[_ ->]|(l1 & l2 & _ & _ & Hmove)]; [by intros [= <- <-] |].
    unfold ordered_config in *.
    destruct (sort_func manager) as [f|] eqn:Hf.
    + destruct Hmove as (sorted & Hs & ->). intros [= <- <-]. simpl.
      rewrite Hf. destruct Hord as (Htotal & Htrans & _).
      split_and!; [done.. |]. by eapply g_list_sort_with_data_sorted.
    + rewrite Hmove. intros [= <- <-]. simpl. by rewrite Hf.
  - intros (sorted & Hs & -> & _)%set_sort_func_cases.
    unfold ordered_config. simpl. destruct f as [f|]; [| done].
    destruct Hc as [Htotal Htrans]. split_and!; [done.. |].
    by eapply g_list_sort_with_data_sorted.
Qed.

(** X10: the collection stays in the order of the comparator in force.
    From a manager without a comparator, or with its collection sorted by a
    total and transitive one, every sequence of notifications and of manage,
    move-to-top and set-sort calls that returns, each set-sort with a total
    and transitive comparator or with none, ends with the collection sorted
    by the comparator then in force. *)
Theorem collection_stays_ordered (cs : list Call)
    (manager manager' : PlayerctlPlayerManagerPrivate) (trace : Trace) :
  Forall passes_order cs -> ordered_config manager ->
  run MPRIS_PREFIX g_object_get_player_id cs manager
  = Done (manager', trace) ->
  ordered_config manager'.
Proof.
  revert manager trace.
  induction cs as [|c cs IH]; intros manager trace Hcs Hord.
  - by intros [= <- <-].
  - apply Forall_cons in Hcs as [Hc Hcs].
    intros (manager1 & trace1 & trace2 & Hstep & Hrun & ->)%run_cons_inv.
    eapply IH; [done | | done]. by eapply step_ordered.
Qed.
End Order.

(** * Further properties of the player collection *)

(** At the head of the first list, [h] comes out of a merge behind those
    handles only that compare smaller than it. *)
Lemma g_list_sort_merge_leads (f : GCompareDataFunc) (user_data : gpointer)
    (h : gpointer) (pre1 post1 l2 r : list gpointer) :
  cmp_total f user_data -> cmp_trans f user_data ->
  Forall (fun x => (0 < f h x user_data)%Z) pre1 ->
  g_list_sort_merge (pre1 ++ h :: post1) l2 (Some f) user_data = Done r ->
  exists pre post,
    r = pre ++ h :: post /\ Forall (fun x => (0 < f h x user_data)%Z) pre.
Proof.
  intros Htotal Htrans. revert l2 r.
  induction pre1 as [|a pre1 IH1]; intros l2 r Hpre1.
  - change ([] ++ h :: post1) with (h :: post1).
    induction l2 as [|b l2 IH2] in r |- *.
    + rewrite g_list_sort_merge_nil_r. intros [= <-]. by exists [], post1.
    + rewrite g_list_sort_merge_cons, call_compare_Some, bind_Done.
      destruct (f h b user_data <=? 0)%Z eqn:Hc.
      * destruct (g_list_sort_merge post1 (b :: l2) (Some f) user_data)
          as [r'|]; [| done].
        intros [= <-]. by exists [], r'.
      * destruct (g_list_sort_merge (h :: post1) l2 (Some f) user_data)
          as [r'|] eqn:Hr'; [| done].
        intros [= <-]. destruct (IH2 _ eq_refl) as (pre & post & -> & Hpre).
        exists (b :: pre), post. split; [done |]. constructor; [lia | done].
  - apply Forall_cons in Hpre1 as [Ha Hpre1].
    change ((a :: pre1) ++ h :: post1) with (a :: (pre1 ++ h :: post1)).
    induction l2 as [|b l2 IH2] in r |- *.
    + rewrite g_list_sort_merge_nil_r. intros [= <-].
      exists (a :: pre1), post1. split; [done |]. by constructor.
    + rewrite g_list_sort_merge_cons, call_compare_Some, bind_Done.
      destruct (f a b user_data <=? 0)%Z eqn:Hc.
      * destruct (g_list_sort_merge (pre1 ++ h :: post1) (b :: l2) (Some f)
                    user_data) as [r'|] eqn:Hr'; [| done].
        intros [= <-].
        destruct (IH1 _ _ Hpre1 Hr') as (pre & post & -> & Hpre).
        exists (a :: pre), post. split; [done |]. by constructor.
      * destruct (g_list_sort_merge (a :: pre1 ++ h :: post1) l2 (Some f)
                    user_data) as [r'|] eqn:Hr'; [| done].
        intros [= <-]. destruct (IH2 _ eq_refl) as (pre & post & -> & Hpre).
        exists (b :: pre), post. split; [done |]. constructor; [| done].
        destruct (Z_lt_le_dec 0 (f h b user_data)) as [|Hhb]; [done |].
        assert (f b a user_data <= 0)%Z as Hba by (apply Htotal; lia).
        pose proof (Htrans h b a Hhb Hba). lia.
Qed.

(** At the head of the list, [h] comes out of the sort behind those handles
    only that compare smaller than it. *)
Lemma g_list_sort_real_leads (f : GCompareDataFunc) (user_data : gpointer)
    (h : gpointer) (fuel : nat) (l r : list gpointer) :
  cmp_total f user_data -> cmp_trans f user_data ->
  g_list_sort_real fuel (h :: l) (Some f) user_data = Done r ->
  exists pre post,
    r = pre ++ h :: post /\ Forall (fun x => (0 < f h x user_data)%Z) pre.
Proof.
  intros Htotal Htrans. revert l r.
  induction fuel as [|fuel IH]; intros l r.
  - assert (g_list_sort_real 0 (h :: l) (Some f) user_data = Done (h :: l))
      as -> by (by destruct l).
    intros [= <-]. by exists [], l.
  - destruct (decide (length (h :: l) <= 1)%nat) as [Hs|Hs].
    { rewrite g_list_sort_real_short by done. intros [= <-]. by exists [], l. }
    destruct (half_bounds (length (h :: l))) as [Hlo Hhi]; [lia |].
    rewrite g_list_sort_real_S by lia.
    destruct (length (h :: l) / 2)%nat as [|n] eqn:Hn; [lia |].
    change (take (S n) (h :: l)) with (h :: take n l).
    destruct (g_list_sort_real fuel (h :: take n l) (Some f) user_data)
      as [s1|] eqn:H1; [| done].
    destruct (g_list_sort_real fuel (drop (S n) (h :: l)) (Some f) user_data)
      as [s2|]; [| done].
    rewrite !bind_Done. intros Hm.
    destruct (IH _ _ H1) as (pre1 & post1 & -> & Hpre1).
    by eapply g_list_sort_merge_leads.
Qed.

(** X11: with a total and transitive comparator in force, moving a managed
    handle to the top returns a collection in which every handle that
    stands before the moved one compares smaller than it: the moved handle
    leads the handles it compares equal to, and stands first when no handle
    compares smaller. *)
Theorem move_player_to_top_leads_its_equals
    (manager : PlayerctlPlayerManagerPrivate) (player : PlayerPtr)
    (f : GCompareDataFunc) :
  sort_func manager = Some f ->
  cmp_total f (sort_data manager) -> cmp_trans f (sort_data manager) ->
  player ∈ players manager ->
  exists manager' pre post,
    playerctl_player_manager_move_player_to_top manager player
    = Done (manager', [])
    /\ players manager' = pre ++ player :: post
    /\ Forall (fun x => (0 < f player x (sort_data manager))%Z) pre.
Proof.
  intros Hf Htotal Htrans Hin.
  destruct (move_player_to_top_cases manager player)
    as [[? _]|(l1 & l2 & _ & _ & Hmove)]; [done |].
  rewrite Hf in Hmove. destruct Hmove as (sorted & Hs & ->).
  destruct (g_list_sort_real_leads f (sort_data manager) player _ _ _
              Htotal Htrans Hs) as (pre & post & -> & Hpre).
  by eexists _, pre, post.
Qed.

(** X12: without a comparator, moving a handle to the top a second time
    changes nothing: the two calls in a row return what the first one
    returns. *)
Theorem move_player_to_top_twice
    (manager : PlayerctlPlayerManagerPrivate) (player : PlayerPtr) :
  sort_func manager = None ->
  ('(manager1, _) ←
     playerctl_player_manager_move_player_to_top manager player;
   playerctl_player_manager_move_player_to_top manager1 player)
  = playerctl_player_manager_move_player_to_top manager player.
Proof.
  intros Hf.
  destruct (move_player_to_top_cases manager player)
    as [[_ Heq]|(l1 & l2 & _ & _ & Hmove)].
  - by rewrite Heq, bind_Done.
  - rewrite Hf in Hmove. rewrite Hmove, bind_Done.
    unfold playerctl_player_manager_move_player_to_top. simpl.
    rewrite decide_True by done. simpl. by rewrite Hf.
Qed.

(** X13: what the initialization reports is what it did.  It returns
    success exactly when it sets no error, and exactly when it leaves the
    manager initialized; a failure carries the error of the bus proxy or of
    the enumeration of the players; a success on a manager that was not
    initialized has stored the enumerated names and the proxy with the
    handler connected.  In every case the player collection and the sort
    configuration are untouched.  The error goes where the caller points:
    run by [constructed], whose error parameter is the manager's own
    [init_error], on a manager that holds no error, the routine leaves in
    [init_error] exactly the error it sets. *)
Theorem initable_init_outcome
    (bus : Bus) (manager : PlayerctlPlayerManagerPrivate) :
  ((playerctl_player_manager_initable_init bus manager).1.1 = true
   <-> (playerctl_player_manager_initable_init bus manager).2 = None)
  /\ ((playerctl_player_manager_initable_init bus manager).1.1 = true
      <-> initted (playerctl_player_manager_initable_init bus manager).1.2
          = true)
  /\ ((playerctl_player_manager_initable_init bus manager).1.1 = false ->
      exists e,
        (playerctl_player_manager_initable_init bus manager).2 = Some e
        /\ (g_dbus_proxy_new_for_bus_sync bus = inr e
            \/ playerctl_list_players bus = inr e))
  /\ (initted manager = false ->
      (playerctl_player_manager_initable_init bus manager).1.1 = true ->
      exists p names,
        g_dbus_proxy_new_for_bus_sync bus = inl p
        /\ playerctl_list_players bus = inl names
        /\ player_names
             (playerctl_player_manager_initable_init bus manager).1.2
           = names
        /\ proxy (playerctl_player_manager_initable_init bus manager).1.2
           = Some (g_signal_connect p))
  /\ players (playerctl_player_manager_initable_init bus manager).1.2
     = players manager
  /\ sort_func (playerctl_player_manager_initable_init bus manager).1.2
     = sort_func manager
  /\ sort_data (playerctl_player_manager_initable_init bus manager).1.2
     = sort_data manager
  /\ sort_notify (playerctl_player_manager_initable_init bus manager).1.2
     = sort_notify manager
  /\ (init_error manager = None ->
      init_error (playerctl_player_manager_constructed bus manager)
      = (playerctl_player_manager_initable_init bus manager).2).
Proof.
  unfold playerctl_player_manager_constructed,
    playerctl_player_manager_initable_init.
  destruct (initted manager) eqn:Hinit; [by split_and! |].
  destruct (g_dbus_proxy_new_for_bus_sync bus) as [p|e]; simpl.
  - destruct (playerctl_list_players bus) as [names|e]; simpl.
    + split_and!; try done. intros H1 H2. exists p, names. by split_and!.
    + rewrite Hinit. split_and!; try done.
      intros H1. exists e. split; [done | by right].
  - rewrite Hinit. split_and!; try done.
    intros H1. exists e. split; [done | by left].
Qed.

(** X14: construction initializes once.  When the bus gives a proxy and
    the names of the players, [playerctl_player_manager_new] returns a
    manager that is initialized, holds no error, tracks exactly those names,
    manages no handle, has no comparator, and has the handler connected to
    the proxy one time, although the initialization ran twice.  When the
    proxy or the enumeration fails, it returns that error. *)
Theorem playerctl_player_manager_new_outcome (bus : Bus) :
  match g_dbus_proxy_new_for_bus_sync bus, playerctl_list_players bus with
  | inl p, inl names =>
      playerctl_player_manager_new bus
      = inl {| initted := true; init_error := None;
               proxy := Some (g_signal_connect p);
               player_names := names; players := [];
               sort_func := None; sort_data := NULL; sort_notify := NULL |}
  | inl _, inr e => playerctl_player_manager_new bus = inr e
  | inr e, _ => playerctl_player_manager_new bus = inr e
  end.
Proof.
  unfold playerctl_player_manager_new, playerctl_player_manager_constructed,
    playerctl_player_manager_initable_init.
  destruct (g_dbus_proxy_new_for_bus_sync bus) as [p|e]; simpl.
  - by destruct (playerctl_list_players bus) as [names|e].
  - done.
Qed.

(** X16: the identifier of a bus name and the bus name of an identifier.
    The name made of the prefix and a non-empty identifier gives that
    identifier back; a name that gives an identifier is the prefix followed
    by it, and the identifier is not empty; two names that give the same
    identifier are the same name; and the null name gives none. *)
Theorem player_id_round_trip (MPRIS_PREFIX : string) :
  (forall id,
      id <> "" ->
      player_id_from_bus_name MPRIS_PREFIX (Some (MPRIS_PREFIX +:+ id))
      = Some id)
  /\ (forall bus_name id,
        player_id_from_bus_name MPRIS_PREFIX (Some bus_name) = Some id ->
        MPRIS_PREFIX +:+ id = bus_name /\ id <> "")
  /\ (forall bus_name1 bus_name2 id,
        player_id_from_bus_name MPRIS_PREFIX (Some bus_name1) = Some id ->
        player_id_from_bus_name MPRIS_PREFIX (Some bus_name2) = Some id ->
        bus_name1 = bus_name2)
  /\ player_id_from_bus_name MPRIS_PREFIX None = None.
Proof.
  split_and!.
  - intros id Hid. by apply player_id_from_bus_name_Some.
  - intros bus_name id [-> Hid]%player_id_from_bus_name_Some. done.
  - intros bus_name1 bus_name2 id [-> _]%player_id_from_bus_name_Some
      [-> _]%player_id_from_bus_name_Some. done.
  - done.
Qed.

(** * The further properties at work on the scenario *)

Lemma by_priority_trans (user_data : gpointer) :
  cmp_trans by_priority user_data.
Proof. intros a b c. unfold by_priority. lia. Defined.

Lemma scenario_session_passes_order : Forall passes_order scenario_session.
Proof.
  unfold scenario_session.
  repeat (constructor;
          [first [exact I
                 | split; [apply by_priority_total | apply by_priority_trans]]
          |]).
  constructor.
Defined.

(** [spotify] vanishes from a registry that tracks [vlc] too. *)
Lemma registry_follows_owner_witness :
  ("spotify"
     ∉ player_names
         (dbus_name_owner_changed_callback mpris_prefix scenario_player_id
            (ready_manager ["vlc"; "spotify"] [])
            (Some "NameOwnerChanged")
            (GVariant_sss "org.mpris.MediaPlayer2.spotify" ":1.5" "")).1)
  /\ ("vlc"
        ∈ player_names
            (dbus_name_owner_changed_callback mpris_prefix scenario_player_id
               (ready_manager ["vlc"; "spotify"] [])
               (Some "NameOwnerChanged")
               (GVariant_sss "org.mpris.MediaPlayer2.spotify" ":1.5" "")).1
      <-> "vlc" ∈ ["vlc"; "spotify"]).
Proof.
  destruct (registry_follows_owner mpris_prefix scenario_player_id
              (ready_manager ["vlc"; "spotify"] [])
              "org.mpris.MediaPlayer2.spotify" ":1.5" "" "spotify" eq_refl)
    as (Hother & _ & Hgone).
  split.
  - apply Hgone; [discriminate | reflexivity | by_computation].
  - apply Hother. discriminate.
Defined.

(** [spotify] appears and vanishes while [vlc] is tracked and managed. *)
Lemma appear_then_vanish_witness :
  (dbus_name_owner_changed_callback mpris_prefix scenario_player_id
     (dbus_name_owner_changed_callback mpris_prefix scenario_player_id
        (ready_manager ["vlc"] [handle_B])
        (Some "NameOwnerChanged")
        (GVariant_sss "org.mpris.MediaPlayer2.spotify" "" ":1.5")).1
     (Some "NameOwnerChanged")
     (GVariant_sss "org.mpris.MediaPlayer2.spotify" ":1.5" "")).1
  = ready_manager ["vlc"] [handle_B].
Proof.
  apply (appear_then_vanish_restores mpris_prefix scenario_player_id
           (ready_manager ["vlc"] [handle_B])
           "org.mpris.MediaPlayer2.spotify" ":1.5" "spotify").
  - reflexivity.
  - discriminate.
  - by_computation.
  - intros p Hp. apply list_elem_of_singleton in Hp. rewrite Hp.
    discriminate.
Defined.

(** Handle A is managed, and then [spotify] vanishes. *)
Lemma manage_then_vanish_witness :
  players
    (dbus_name_owner_changed_callback mpris_prefix scenario_player_id
       (playerctl_player_manager_manage_player
          (ready_manager ["spotify"] [handle_B]) handle_A).1
       (Some "NameOwnerChanged")
       (GVariant_sss "org.mpris.MediaPlayer2.spotify" ":1.5" "")).1
  = [handle_B].
Proof.
  apply (manage_then_vanish_restores mpris_prefix scenario_player_id
           (ready_manager ["spotify"] [handle_B]) handle_A
           "org.mpris.MediaPlayer2.spotify" ":1.5" "spotify").
  - reflexivity.
  - discriminate.
  - by_computation.
  - reflexivity.
  - reflexivity.
  - discriminate.
  - by_computation.
Defined.

(** Handles A and B both report [spotify], which vanishes. *)
Lemma vanished_unlinks_first_handle_witness :
  players
    (dbus_name_owner_changed_callback mpris_prefix shared_player_id
       (ready_manager ["spotify"] [handle_A; handle_B])
       (Some "NameOwnerChanged")
       (GVariant_sss "org.mpris.MediaPlayer2.spotify" ":1.5" "")).1
  = [handle_B].
Proof.
  apply (vanished_unlinks_first_handle_only mpris_prefix shared_player_id
           (ready_manager ["spotify"] [handle_A; handle_B])
           "org.mpris.MediaPlayer2.spotify" ":1.5" "spotify"
           [] [] [] handle_A handle_B).
  - reflexivity.
  - discriminate.
  - by_computation.
  - by_computation.
  - reflexivity.
  - reflexivity.
  - reflexivity.
  - constructor.
Defined.

(** Handle A is managed by a new manager. *)
Lemma emissions_see_returned_state_witness :
  Forall
    (fun e =>
       e.2 = (playerctl_player_manager_manage_player
                playerctl_player_manager_init handle_A).1)
    (playerctl_player_manager_manage_player
       playerctl_player_manager_init handle_A).2.
Proof.
  apply (emissions_see_returned_state mpris_prefix scenario_player_id
           (manage_player handle_A) playerctl_player_manager_init).
  reflexivity.
Defined.

(** [spotify] vanishes while handle A is managed. *)
Lemma calls_leave_the_rest_alone_witness :
  players
    (dbus_name_owner_changed_callback mpris_prefix scenario_player_id
       (ready_manager ["spotify"] [handle_A])
       (Some "NameOwnerChanged")
       (GVariant_sss "org.mpris.MediaPlayer2.spotify" ":1.5" "")).1
  `sublist_of` [handle_A].
Proof.
  destruct (calls_leave_the_rest_alone mpris_prefix scenario_player_id
              (g_signal (Some "NameOwnerChanged")
                 (GVariant_sss "org.mpris.MediaPlayer2.spotify" ":1.5" ""))
              (ready_manager ["spotify"] [handle_A]) _ _ eq_refl)
    as (_ & _ & _ & _ & _ & _ & Hsub & _).
  exact Hsub.
Defined.

(** The session of the scenario: its emissions agree with the states. *)
Lemma emissions_agree_with_state_witness :
  exists manager' trace,
    run mpris_prefix scenario_player_id scenario_session
      playerctl_player_manager_init
    = Done (manager', trace)
    /\ Forall consistent trace.
Proof.
  eexists _, _. split; [reflexivity |].
  eapply (emissions_agree_with_state mpris_prefix scenario_player_id
            scenario_session playerctl_player_manager_init);
    [apply NoDup_nil_2 | apply NoDup_nil_2 | reflexivity].
Defined.

(** The session of the scenario: handle A appears once and vanishes once. *)
Lemma emissions_balance_witness :
  exists manager' trace,
    run mpris_prefix scenario_player_id scenario_session
      playerctl_player_manager_init
    = Done (manager', trace)
    /\ (emissions (PLAYER_APPEARED handle_A) trace + 0
        = emissions (PLAYER_VANISHED handle_A) trace
          + holds handle_A (players manager'))%nat.
Proof.
  eexists _, _. split; [reflexivity |].
  eapply (emissions_balance_membership mpris_prefix scenario_player_id
            scenario_session playerctl_player_manager_init);
    [apply NoDup_nil_2 | apply NoDup_nil_2 | reflexivity].
Defined.

(** The session of the scenario ends sorted by priority. *)
Lemma collection_stays_ordered_witness :
  exists manager' trace,
    run mpris_prefix scenario_player_id scenario_session
      playerctl_player_manager_init
    = Done (manager', trace)
    /\ ordered_config manager'.
Proof.
  eexists _, _. split; [reflexivity |].
  eapply (collection_stays_ordered mpris_prefix scenario_player_id
            scenario_session playerctl_player_manager_init);
    [apply scenario_session_passes_order | exact I | reflexivity].
Defined.

(** C is moved to the top of [B; A; C], sorted by priority. *)
Lemma move_player_to_top_leads_witness :
  exists manager' pre post,
    playerctl_player_manager_move_player_to_top
      (set_sort (ready_manager [] [handle_B; handle_A; handle_C])
         (Some by_priority) NULL NULL) handle_C
    = Done (manager', [])
    /\ players manager' = pre ++ handle_C :: post
    /\ Forall (fun x => (0 < by_priority handle_C x NULL)%Z) pre.
Proof.
  apply (move_player_to_top_leads_its_equals
           (set_sort (ready_manager [] [handle_B; handle_A; handle_C])
              (Some by_priority) NULL NULL) handle_C by_priority).
  - reflexivity.
  - apply by_priority_total.
  - apply by_priority_trans.
  - by_computation.
Defined.

(** C is moved to the top of [A; B; C] twice. *)
Lemma move_player_to_top_twice_witness :
  ('(manager1, _) ←
     playerctl_player_manager_move_player_to_top
       (ready_manager [] [handle_A; handle_B; handle_C]) handle_C;
   playerctl_player_manager_move_player_to_top manager1 handle_C)
  = playerctl_player_manager_move_player_to_top
      (ready_manager [] [handle_A; handle_B; handle_C]) handle_C.
Proof.
  apply (move_player_to_top_twice
           (ready_manager [] [handle_A; handle_B; handle_C]) handle_C).
  reflexivity.
Defined.
